(** * The root-drive filesystem manager: drive registry and mount reconciliation

    A shallow embedding of [configDrive], [removeDrive], [listDrives],
    [getDriveConfig], [getAvailableName], [ensureDir], [ensureMount] and
    [ensureUnmount].  The module variable [drives] is a JavaScript array of
    object references, so the embedding keeps a heap of [DriveConfig] objects
    and a heap of [forkOf] objects and passes references around.  An [async]
    function is a resumption: it runs synchronously up to its next [await],
    hands the shared state back, and is resumed later on whatever the shared
    state has become. *)

From stdpp Require Import base strings list gmap pretty.

(** ** Data model *)

(** A reference to a heap object. *)
Abbreviation loc := nat.

(** [DriveConfig.forkOf]: an object with a [key] and a [label], each one a
    string or [undefined]. *)
Record ForkOf := { fork_key : option string; fork_label : option string }.

(** [DriveConfig]: [{key, forkOf?}]; [key] is a string or [undefined],
    [forkOf] is a reference, [None] when the property is absent. *)
Record DriveConfig := { cfg_key : option string; cfg_forkOf : option loc }.

(** The [forkOf] option as the caller passes it. *)
Inductive jsarg :=
| ArgUndefined
| ArgObject (l : loc)
| ArgOther.  (* null, a boolean, a number, a string *)

(** The parsed manifest of a drive; [mf_forkOf] is the [forkOf] property when
    it is a string. *)
Record Manifest := { mf_forkOf : option string }.

(** A drive handle of the drive store: its key, [drive.writable], and what
    [drive.pda.readManifest()] settles to ([None]: it rejects). *)
Record Drive := {
  drive_key : string;
  writable : bool;
  drive_manifest : option Manifest
}.

(** [hyper.drives]. [None] stands for a rejected promise. *)
Record DriveStore := {
  fromURLToKey : string -> option string;
  getOrLoadDrive : string -> option Drive
}.

(** What [modals.create(.., 'prompt', ..)] resolves to. *)
Inductive PromptRes :=
| PromptFalsy
| PromptObject (value : option string).

(** What [rootDrive.pda.stat] resolves to. The mount key is kept as its hex
    string. *)
Record Stat := { isDirectory : bool; mount : option string }.

(** The serialized registry [{drives: [...]}]: a deep copy of everything
    reachable from [drives].  A property whose value is [undefined] is left
    out by [JSON.stringify], hence the options. *)
Record DocFork := { doc_fork_key : option string; doc_fork_label : option string }.
Record DocEntry := { doc_key : option string; doc_forkOf : option DocFork }.
Record RegistryDocument := { doc_drives : list DocEntry }.

(** [{announce, lookup}] as given to [configureNetwork]. *)
Record NetworkConfig := { announce : bool; lookup : bool }.

#[global] Instance ForkOf_eq_dec : EqDecision ForkOf.
Proof. solve_decision. Defined.
#[global] Instance DriveConfig_eq_dec : EqDecision DriveConfig.
Proof. solve_decision. Defined.
#[global] Instance DocFork_eq_dec : EqDecision DocFork.
Proof. solve_decision. Defined.
#[global] Instance DocEntry_eq_dec : EqDecision DocEntry.
Proof. solve_decision. Defined.
#[global] Instance Stat_eq_dec : EqDecision Stat.
Proof. solve_decision. Defined.

(** The part of [rootDrive.pda] that the manager calls. [None] is a rejected
    promise; a rejected operation leaves the drive as it was. *)
Class RootFS (FS : Type) := {
  fs_stat : FS -> string -> option Stat;
  fs_mkdir : FS -> string -> option FS;
  fs_mount : FS -> string -> string -> option FS;
  fs_unmount : FS -> string -> option FS;
  fs_writeFile : FS -> string -> RegistryDocument -> option FS;
  fs_readFile : FS -> string -> option RegistryDocument
}.

(** What the manager relies on from the root drive: an operation that
    succeeded is visible to the next [stat] or [readFile] of that path. *)
Class RootFSLaws (FS : Type) `{RootFS FS} : Prop := {
  stat_mkdir fs fs' p :
    fs_mkdir fs p = Some fs' ->
    exists st, fs_stat fs' p = Some st /\ isDirectory st = true;
  stat_mount fs fs' p k :
    fs_mount fs p k = Some fs' ->
    exists st, fs_stat fs' p = Some st /\ mount st = Some k;
  stat_unmount fs fs' p st :
    fs_unmount fs p = Some fs' -> fs_stat fs' p = Some st -> mount st = None;
  read_write fs fs' p d :
    fs_writeFile fs p d = Some fs' -> fs_readFile fs' p = Some d
}.

(** Calls and log lines as they happen, oldest first. *)
Inductive event :=
| EvLock (name : string)
| EvRelease (name : string)
| EvFromURLToKey (url : string)
| EvGetOrLoadDrive (url : string)
| EvReadManifest (key : string)
| EvConfigureNetwork (key : string) (cfg : NetworkConfig)
| EvPrompt (message : string) (answer : option PromptRes)
| EvWriteFile (path : string) (data : RegistryDocument)
| EvStat (path : string)
| EvMkdir (path : string)
| EvMount (path key : string)
| EvUnmount (path : string)
| EvLogInfo (message : string)
| EvLogError (message : string).

Inductive error :=
| TypeError (message : string)
| Error (message : string)
| Rejected (what : string).

(** How a statement list ends: it runs off its end, executes [return], or
    throws. *)
Inductive completion (A : Type) :=
| Normal (a : A)
| Return
| Throw (e : error).
Arguments Normal {A} a.
Arguments Return {A}.
Arguments Throw {A} e.

(** The operations a function awaits. *)
Inductive op : Type -> Type :=
| OLock (name : string) : op unit
| OFromURLToKey (url : string) : op (option string)
| OGetOrLoadDrive (url : string) : op (option Drive)
| OReadManifest (d : Drive) : op (option Manifest)
| OPrompt (message : string) : op (option PromptRes)
| OWriteFile (path : string) (data : RegistryDocument) : op (option unit)
| OStat (path : string) : op (option Stat)
| OMkdir (path : string) : op (option unit)
| OMount (path key : string) : op (option unit)
| OUnmount (path : string) : op (option unit).

Section Filesystem.
Context {FS : Type} `{RootFS FS}.

(** ** Shared state *)

Record state := {
  drives : list loc;               (* [var drives = []] *)
  cfgs : list DriveConfig;         (* heap of DriveConfig objects *)
  forks : list ForkOf;             (* heap of forkOf objects *)
  rootUrl : string;                (* [rootDrive.url] *)
  rootfs : FS;                     (* the content of the root drive *)
  locks : list string;             (* names held through lib/lock *)
  network : gmap string NetworkConfig;
  focusedWindow : bool;            (* is [BrowserWindow.getFocusedWindow()] a window *)
  answers : list (option PromptRes); (* what the coming prompts settle to *)
  trace : list event
}.

Definition set_drives (f : list loc -> list loc) (s : state) : state :=
  {| drives := f (drives s); cfgs := cfgs s; forks := forks s;
     rootUrl := rootUrl s; rootfs := rootfs s; locks := locks s;
     network := network s; focusedWindow := focusedWindow s;
     answers := answers s; trace := trace s |}.
Definition set_cfgs (f : list DriveConfig -> list DriveConfig) (s : state) : state :=
  {| drives := drives s; cfgs := f (cfgs s); forks := forks s;
     rootUrl := rootUrl s; rootfs := rootfs s; locks := locks s;
     network := network s; focusedWindow := focusedWindow s;
     answers := answers s; trace := trace s |}.
Definition set_forks (f : list ForkOf -> list ForkOf) (s : state) : state :=
  {| drives := drives s; cfgs := cfgs s; forks := f (forks s);
     rootUrl := rootUrl s; rootfs := rootfs s; locks := locks s;
     network := network s; focusedWindow := focusedWindow s;
     answers := answers s; trace := trace s |}.
Definition set_rootfs (fs : FS) (s : state) : state :=
  {| drives := drives s; cfgs := cfgs s; forks := forks s;
     rootUrl := rootUrl s; rootfs := fs; locks := locks s;
     network := network s; focusedWindow := focusedWindow s;
     answers := answers s; trace := trace s |}.
Definition set_locks (f : list string -> list string) (s : state) : state :=
  {| drives := drives s; cfgs := cfgs s; forks := forks s;
     rootUrl := rootUrl s; rootfs := rootfs s; locks := f (locks s);
     network := network s; focusedWindow := focusedWindow s;
     answers := answers s; trace := trace s |}.
Definition set_network (f : gmap string NetworkConfig -> gmap string NetworkConfig)
    (s : state) : state :=
  {| drives := drives s; cfgs := cfgs s; forks := forks s;
     rootUrl := rootUrl s; rootfs := rootfs s; locks := locks s;
     network := f (network s); focusedWindow := focusedWindow s;
     answers := answers s; trace := trace s |}.
Definition set_answers (a : list (option PromptRes)) (s : state) : state :=
  {| drives := drives s; cfgs := cfgs s; forks := forks s;
     rootUrl := rootUrl s; rootfs := rootfs s; locks := locks s;
     network := network s; focusedWindow := focusedWindow s;
     answers := a; trace := trace s |}.
Definition emit (e : event) (s : state) : state :=
  {| drives := drives s; cfgs := cfgs s; forks := forks s;
     rootUrl := rootUrl s; rootfs := rootfs s; locks := locks s;
     network := network s; focusedWindow := focusedWindow s;
     answers := answers s; trace := trace s ++ [e] |}.

(** ** Resumptions *)

(** A function that has run up to a point: finished in state [s], or
    suspended at [await o] after leaving the shared state as [s]; [k] resumes
    it with the value awaited and the shared state of that later moment. *)
Inductive res (A : Type) : Type :=
| Fin (s : state) (c : completion A)
| Susp {R : Type} (o : op R) (s : state) (k : R -> state -> res A).
Arguments Fin {A} s c.
Arguments Susp {A R} o s k.

Definition prog (A : Type) : Type := state -> res A.

Fixpoint bind_res {A B} (r : res A) (f : A -> prog B) : res B :=
  match r with
  | Fin s (Normal a) => f a s
  | Fin s Return => Fin s Return
  | Fin s (Throw e) => Fin s (Throw e)
  | Susp o s k => Susp o s (fun x s' => bind_res (k x s') f)
  end.

#[global] Instance prog_ret : MRet prog := fun A a s => Fin s (Normal a).
#[global] Instance prog_bind : MBind prog := fun A B f p s => bind_res (p s) f.

Definition await {R} (o : op R) : prog R :=
  fun s => Susp o s (fun x s' => Fin s' (Normal x)).
Definition throw {A} (e : error) : prog A := fun s => Fin s (Throw e).
Definition return_ {A} : prog A := fun s => Fin s Return.
Definition gets {A} (f : state -> A) : prog A := fun s => Fin s (Normal (f s)).
Definition modify (f : state -> state) : prog unit := fun s => Fin (f s) (Normal tt).

(** Awaiting a promise that rejects throws at the [await]. *)
Definition awaitT {R} (what : string) (o : op (option R)) : prog R :=
  r ← await o;
  match r with
  | Some x => mret x
  | None => throw (Rejected what)
  end.

(** [try { body } finally { fin }]: [fin] runs however [body] ends, then the
    completion of [body] takes effect. *)
Fixpoint finally_res {A} (r : res A) (fin : prog unit) : res A :=
  match r with
  | Fin s c => bind_res (fin s) (fun _ s' => Fin s' c)
  | Susp o s k => Susp o s (fun x s' => finally_res (k x s') fin)
  end.
Definition try_finally {A} (body : prog A) (fin : prog unit) : prog A :=
  fun s => finally_res (body s) fin.

(** [try { body } catch (e) { handler }]. *)
Fixpoint catch_res {A} (r : res A) (handler : error -> prog A) : res A :=
  match r with
  | Fin s (Throw e) => handler e s
  | Fin s c => Fin s c
  | Susp o s k => Susp o s (fun x s' => catch_res (k x s') handler)
  end.
Definition try_catch {A} (body : prog A) (handler : error -> prog A) : prog A :=
  fun s => catch_res (body s) handler.

(** ** The world behind an [await] *)

Variable ds : DriveStore.

(** [path.join] of Node. *)
Variable joinPath : string -> string -> string.

Definition held (name : string) (s : state) : bool :=
  bool_decide (name ∈ locks s).

(** A call that changes the root drive: it resolves and the drive is the
    changed one, or it rejects and the drive is as before. *)
Definition settle_fs (e : event) (r : option FS) (s : state) : option (state * option unit) :=
  match r with
  | Some fs' => Some (set_rootfs fs' (emit e s), Some tt)
  | None => Some (emit e s, None)
  end.

(** Modelled from the spec: [lib/lock], "a named mutual-exclusion primitive":
    a caller that asks for a name that is held "blocks until the first fully
    completes and releases".  [OLock] is answered only while the name is
    free, and then marks it held; [unlock] below frees it.

    [handle o s] is the answer to the awaited operation [o] in state [s],
    with the state it leaves; [None] when no answer comes in [s] (the lock
    is held, or no prompt answer is pending). *)
Definition handle {R} (o : op R) (s : state) : option (state * R) :=
  match o in op R return option (state * R) with
  | OLock name =>
      if held name s then None
      else Some (set_locks (cons name) (emit (EvLock name) s), tt)
  | OFromURLToKey url => Some (emit (EvFromURLToKey url) s, fromURLToKey ds url)
  | OGetOrLoadDrive url => Some (emit (EvGetOrLoadDrive url) s, getOrLoadDrive ds url)
  | OReadManifest d => Some (emit (EvReadManifest (drive_key d)) s, drive_manifest d)
  | OPrompt message =>
      match answers s with
      | [] => None
      | a :: rest => Some (set_answers rest (emit (EvPrompt message a) s), a)
      end
  | OWriteFile path data =>
      settle_fs (EvWriteFile path data) (fs_writeFile (rootfs s) path data) s
  | OStat path => Some (emit (EvStat path) s, fs_stat (rootfs s) path)
  | OMkdir path => settle_fs (EvMkdir path) (fs_mkdir (rootfs s) path) s
  | OMount path key => settle_fs (EvMount path key) (fs_mount (rootfs s) path key) s
  | OUnmount path => settle_fs (EvUnmount path) (fs_unmount (rootfs s) path) s
  end.

(** One call running alone: every [await] is answered at once. *)
Inductive outcome (A : Type) :=
| Finished (s : state) (c : completion A)
| Blocked (s : state).
Arguments Finished {A} s c.
Arguments Blocked {A} s.

Fixpoint run_res {A} (r : res A) : outcome A :=
  match r with
  | Fin s c => Finished s c
  | Susp o s k =>
      match handle o s with
      | Some (s', x) => run_res (k x s')
      | None => Blocked s
      end
  end.
Definition run {A} (p : prog A) (s : state) : outcome A := run_res (p s).

(** The state a call running alone leaves. *)
Definition final_state {A} (o : outcome A) : state :=
  match o with
  | Finished s _ => s
  | Blocked s => s
  end.

(** ** Objects and the [drives] array *)

(** [{key, forkOf}] as a new object. *)
Definition new_cfg (c : DriveConfig) : prog loc :=
  fun s => Fin (set_cfgs (fun h => h ++ [c]) s) (Normal (length (cfgs s))).
Definition new_fork (f : ForkOf) : prog loc :=
  fun s => Fin (set_forks (fun h => h ++ [f]) s) (Normal (length (forks s))).

(** [c.forkOf = v] and [delete c.forkOf]. *)
Definition put_forkOf (v : option loc) (c : DriveConfig) : DriveConfig :=
  {| cfg_key := cfg_key c; cfg_forkOf := v |}.
Definition set_cfg_forkOf (c : loc) (v : option loc) : prog unit :=
  modify (set_cfgs (alter (put_forkOf v) c)).
(** [f.key = v] and [f.label = v]. *)
Definition put_key (v : option string) (f : ForkOf) : ForkOf :=
  {| fork_key := v; fork_label := fork_label f |}.
Definition put_label (v : option string) (f : ForkOf) : ForkOf :=
  {| fork_key := fork_key f; fork_label := v |}.
Definition set_fork_key (f : loc) (v : option string) : prog unit :=
  modify (set_forks (alter (put_key v) f)).
Definition set_fork_label (f : loc) (v : option string) : prog unit :=
  modify (set_forks (alter (put_label v) f)).

(** Property reads through a reference into a heap.  A reference outside
    the heap is not a state this code builds; reading through it gives
    [undefined]. *)
Definition key_of (h : list DriveConfig) (c : loc) : option string :=
  h !! c ≫= cfg_key.
Definition forkOf_of (h : list DriveConfig) (c : loc) : option loc :=
  h !! c ≫= cfg_forkOf.
Definition fork_key_of (h : list ForkOf) (f : loc) : option string :=
  h !! f ≫= fork_key.
Definition fork_label_of (h : list ForkOf) (f : loc) : option string :=
  h !! f ≫= fork_label.

(** Truthiness of a string-or-undefined. *)
Definition truthy (v : option string) : bool :=
  match v with
  | Some s => negb (bool_decide (s = ""))
  | None => false
  end.

(** [arr.find(d => d.key === key)] and [arr.findIndex(..)]. *)
Definition find_key (h : list DriveConfig) (key : option string) (arr : list loc)
    : option (nat * loc) :=
  list_find (fun d => key_of h d = key) arr.
Definition drives_find (key : option string) : prog (option loc) :=
  gets (fun s => snd <$> find_key (cfgs s) key (drives s)).
Definition drives_findIndex (key : option string) : prog (option nat) :=
  gets (fun s => fst <$> find_key (cfgs s) key (drives s)).
Definition drives_push (c : loc) : prog unit :=
  modify (set_drives (fun d => d ++ [c])).
(** [drives.splice(i, 1)] *)
Definition drives_splice1 (i : nat) : prog unit :=
  modify (set_drives (delete i)).

(** [JSON.stringify({drives}, null, 2)], up to the layout of the text. *)
Definition stringify_fork (fh : list ForkOf) (f : loc) : DocFork :=
  {| doc_fork_key := fork_key_of fh f; doc_fork_label := fork_label_of fh f |}.
Definition stringify_entry (h : list DriveConfig) (fh : list ForkOf) (c : loc) : DocEntry :=
  {| doc_key := key_of h c; doc_forkOf := stringify_fork fh <$> forkOf_of h c |}.
Definition JSON_stringify (s : state) : RegistryDocument :=
  {| doc_drives := stringify_entry (cfgs s) (forks s) <$> drives s |}.

(** [release()] of [lib/lock]. *)
Definition unlock (name : string) : prog unit :=
  modify (fun s => set_locks (filter (fun n => n ≠ name)) (emit (EvRelease name) s)).
(** [await lock(name)]: resolves to the release function. *)
Definition lock (name : string) : prog (prog unit) :=
  await (OLock name);; mret (unlock name).

(** [drive.session.drive.configureNetwork({announce, lookup})] *)
Definition configureNetwork (d : Drive) (cfg : NetworkConfig) : prog unit :=
  modify (fun s =>
    set_network (insert (drive_key d) cfg) (emit (EvConfigureNetwork (drive_key d) cfg) s)).

Definition logger_info (message : string) : prog unit := modify (emit (EvLogInfo message)).
Definition logger_error (message : string) : prog unit := modify (emit (EvLogError message)).

Definition when (b : bool) (p : prog unit) : prog unit := if b then p else mret tt.

(** ** The exported functions *)

(** [str.slice(n)] *)
Fixpoint slice (n : nat) (str : string) : string :=
  match n, str with
  | O, _ => str
  | S n', String _ rest => slice n' rest
  | S _, EmptyString => EmptyString
  end.

Definition listDrives (includeSystem : bool) : prog (list loc) :=
  d ← gets drives;
  if includeSystem then
    url ← gets rootUrl;
    c ← new_cfg {| cfg_key := Some (slice (String.length "hyper://") url);
                   cfg_forkOf := None |};
    mret (c :: d)
  else mret d.

Definition getDriveConfig (key : string) : prog (option loc) :=
  d ← listDrives false;
  gets (fun s => snd <$> find_key (cfgs s) (Some key) d).

Definition prompt_message : string :=
  "Choose a label to save this fork under (e.g. " +:+ String (Ascii.ascii_of_nat 34) "dev" +:+
  String (Ascii.ascii_of_nat 34) " or " +:+ String (Ascii.ascii_of_nat 34) "bobs-changes" +:+ String (Ascii.ascii_of_nat 34) ")".

(** The fork-label prompt with its [.catch(e => false)] and the test
    [!promptRes || !promptRes.value]: the label, or [None] when the prompt
    was declined or gave nothing. *)
Definition prompt_label : prog (option string) :=
  focused ← gets focusedWindow;
  if focused : bool then
    promptRes ← await (OPrompt prompt_message);
    match promptRes with
    | Some (PromptObject v) => if truthy v then mret v else mret None
    | Some PromptFalsy | None => mret None
    end
  else throw (TypeError "Cannot read property 'webContents' of null").

Definition configDrive (url : string) (forkOf : jsarg) : prog unit :=
  release ← lock "filesystem:drives";
  try_finally (
    key ← awaitT "fromURLToKey" (OFromURLToKey url);
    found ← drives_find (Some key);
    match found with
    | None =>
        drive ← awaitT "getOrLoadDrive" (OGetOrLoadDrive url);
        (* [.catch(_ => {})]: the handler's body is an empty block, so a
           rejected read gives [undefined] *)
        manifest ← await (OReadManifest drive);
        driveCfg ← new_cfg {| cfg_key := Some key; cfg_forkOf := None |};
        match forkOf with
        | ArgObject f => set_cfg_forkOf driveCfg (Some f)
        | ArgUndefined | ArgOther => mret tt
        end;;
        when (negb (writable drive))
          (configureNetwork drive {| announce := true; lookup := true |});;
        manifest_forkOf ←
          match manifest with
          | Some m => mret (mf_forkOf m)
          | None => throw (TypeError "Cannot read property 'forkOf' of undefined")
          end;
        match manifest_forkOf with
        | Some parentUrl =>
            when (truthy (Some parentUrl)) (
              cur ← gets (fun s => forkOf_of (cfgs s) driveCfg);
              f ← match cur with
                  | Some f => mret f
                  | None =>
                      f ← new_fork {| fork_key := None; fork_label := None |};
                      set_cfg_forkOf driveCfg (Some f);;
                      mret f
                  end;
              parentKey ← awaitT "fromURLToKey" (OFromURLToKey parentUrl);
              set_fork_key f (Some parentKey);;
              label ← gets (fun s => fork_label_of (forks s) f);
              when (negb (truthy label)) (
                answer ← prompt_label;
                match answer with
                | None => return_
                | Some v => set_fork_label f (Some v)
                end);;
              parentKey' ← gets (fun s => fork_key_of (forks s) f);
              parentDriveCfg ← drives_find parentKey';
              match parentDriveCfg with
              | None =>
                  parent ← new_cfg {| cfg_key := parentKey'; cfg_forkOf := None |};
                  drives_push parent
              | Some _ => mret tt
              end)
        | None => mret tt
        end;;
        drives_push driveCfg
    | Some driveCfg =>
        match forkOf with
        | ArgUndefined => mret tt
        | ArgObject f => set_cfg_forkOf driveCfg (Some f)
        | ArgOther => set_cfg_forkOf driveCfg None
        end
    end;;
    data ← gets JSON_stringify;
    awaitT "writeFile" (OWriteFile "/drives.json" data)
  ) release.

Definition removeDrive (url : string) : prog unit :=
  release ← lock "filesystem:drives";
  try_finally (
    key ← awaitT "fromURLToKey" (OFromURLToKey url);
    driveIndex ← drives_findIndex (Some key);
    match driveIndex with
    | None => return_
    | Some driveIndex =>
        drive ← awaitT "getOrLoadDrive" (OGetOrLoadDrive url);
        when (negb (writable drive))
          (configureNetwork drive {| announce := false; lookup := true |});;
        drives_splice1 driveIndex;;
        data ← gets JSON_stringify;
        awaitT "writeFile" (OWriteFile "/drives.json" data)
    end
  ) release.

(** ** Internal methods *)

(** [stat]: [null] when [pda.stat] rejects. *)
Definition stat (path : string) : prog (option Stat) :=
  try_catch (st ← awaitT "stat" (OStat path); mret (Some st)) (fun _ => mret None).

(** The name tried in round [i] of [getAvailableName]. *)
Definition candidate (basename : string) (ext joiningChar : option string) (i : N) : string :=
  (if bool_decide (i = 1%N) then basename
   else basename +:+ default "-" joiningChar +:+ pretty i)
  +:+ (if truthy ext then "." +:+ default "" ext else "").

(** The [for] loop of [getAvailableName] at counter [i] with [n] rounds left,
    [n] being [1e9 - i]: the test [i < 1e9] fails when [n] is [0]. *)
Fixpoint getAvailableName_from (n : nat) (i : N) (containingPath basename : string)
    (ext joiningChar : option string) : prog string :=
  match n with
  | O => throw (Error ("Unable to find an available name for " +:+ basename))
  | S n' =>
      let name := candidate basename ext joiningChar i in
      st ← stat (joinPath containingPath name);
      match st with
      | None => mret name
      | Some _ =>
          getAvailableName_from n' (i + 1)%N containingPath basename ext joiningChar
      end
  end.

Definition bound : N := 1000000000.

Definition getAvailableName (containingPath basename : string)
    (ext joiningChar : option string) : prog string :=
  getAvailableName_from (N.to_nat (bound - 1)) 1%N containingPath basename ext joiningChar.

Definition ensureDir (path : string) : prog unit :=
  try_catch (
    st ← stat path;
    match st with
    | None =>
        logger_info ("Creating directory " +:+ path);;
        awaitT "mkdir" (OMkdir path)
    | Some st =>
        when (negb (isDirectory st))
          (logger_error "Warning! Filesystem expects a folder but an unexpected file exists at this location.")
    end)
  (fun e => logger_error "Filesystem failed to make directory").

Definition ensureMount (path url : string) : prog unit :=
  try_catch (
    st ← stat path;
    key ← awaitT "fromURLToKey" (OFromURLToKey url);
    match st with
    | None =>
        logger_info ("Adding mount " +:+ path);;
        awaitT "mount" (OMount path key)
    | Some st =>
        match mount st with
        | Some oldKey =>
            when (bool_decide (oldKey ≠ key)) (
              logger_info "Reassigning mount";;
              awaitT "unmount" (OUnmount path);;
              awaitT "mount" (OMount path key))
        | None =>
            logger_error "Warning! Filesystem expects a mount but an unexpected file exists at this location."
        end
    end)
  (fun e => logger_error "Filesystem failed to mount drive").

Definition ensureUnmount (path : string) : prog unit :=
  try_catch (
    st ← stat path;
    match st with
    | Some {| mount := Some _ |} =>
        logger_info "Removing mount";;
        awaitT "unmount" (OUnmount path)
    | _ => mret tt
    end)
  (fun e => logger_error "Filesystem failed to unmount drive").

(** ** Running alone, compositionally *)

(** What a call that follows another one does. *)
Definition and_then {A B} (o : outcome A) (f : A -> state -> outcome B) : outcome B :=
  match o with
  | Finished s (Normal a) => f a s
  | Finished s Return => Finished s Return
  | Finished s (Throw e) => Finished s (Throw e)
  | Blocked s => Blocked s
  end.

(** [finally]: the finalizer runs after the body, however it ended. *)
Definition and_finally {A} (o : outcome A) (fin : state -> outcome unit) : outcome A :=
  match o with
  | Finished s c =>
      match fin s with
      | Finished s' (Normal _) => Finished s' c
      | Finished s' Return => Finished s' Return
      | Finished s' (Throw e) => Finished s' (Throw e)
      | Blocked s' => Blocked s'
      end
  | Blocked s => Blocked s
  end.

Definition or_catch {A} (o : outcome A) (handler : error -> state -> outcome A) : outcome A :=
  match o with
  | Finished s (Throw e) => handler e s
  | _ => o
  end.

(** ** Weakest preconditions

    [wp blk p Q s]: the call [p] made in state [s] and run alone ends in a
    state and with a completion that satisfy [Q]; [blk] is what is claimed
    of a call that never gets an answer ([True]: nothing, [False]: it does
    not happen). *)
Definition wp_def {A} (blk : Prop) (p : prog A) (Q : completion A -> state -> Prop)
    (s : state) : Prop :=
  match run p s with
  | Finished s' c => Q c s'
  | Blocked _ => blk
  end.
(** [wp] is sealed: it is used through its rules, never unfolded. *)
Definition wp_aux : seal (@wp_def).
Proof. by eexists. Qed.
Definition wp {A} := wp_aux.(unseal) A.
Lemma wp_unseal {A} blk (p : prog A) Q s : wp blk p Q s = wp_def blk p Q s.
Proof. unfold wp. by rewrite (seal_eq wp_aux). Qed.

(** What must hold after [p] for [Q] to hold after [p ≫= f]. *)
Definition bind_post {A B} blk (f : A -> prog B) (Q : completion B -> state -> Prop)
    (c : completion A) (s : state) : Prop :=
  match c with
  | Normal a => wp blk (f a) Q s
  | Return => Q Return s
  | Throw e => Q (Throw e) s
  end.

(** The same for the finalizer of [try .. finally], given how the body
    ended, and for the handler of [try .. catch]. *)
Definition after_finally {A} (Q : completion A -> state -> Prop) (c : completion A)
    (c' : completion unit) (s : state) : Prop :=
  match c' with
  | Normal _ => Q c s
  | Return => Q Return s
  | Throw e => Q (Throw e) s
  end.
Definition catch_post {A} blk (handler : error -> prog A)
    (Q : completion A -> state -> Prop) (c : completion A) (s : state) : Prop :=
  match c with
  | Throw e => wp blk (handler e) Q s
  | Normal a => Q (Normal a) s
  | Return => Q Return s
  end.


(** ** What a call did *)

(** The events of a call that started in [s] and is now in [s']. *)
Definition new_events (s s' : state) : list event :=
  drop (length (trace s)) (trace s').

(** Calls that change the root drive when they succeed. *)
Definition is_mutation (e : event) : bool :=
  match e with
  | EvMkdir _ | EvMount _ _ | EvUnmount _ | EvWriteFile _ _ => true
  | _ => false
  end.
Definition mutations (s s' : state) : list event :=
  filter (fun e => is_mutation e = true) (new_events s s').

(** A prompt that was declined or gave nothing: it rejected, resolved to
    something falsy, or to an object whose [value] is falsy. *)
Definition declined (a : option PromptRes) : Prop :=
  match a with
  | Some (PromptObject v) => truthy v = false
  | Some PromptFalsy | None => True
  end.

(** [{announce: true, lookup: true}] *)
Definition seed : NetworkConfig := {| announce := true; lookup := true |}.

(** The lineage of the entry [c]: if it has a [forkOf], some entry of the
    registry has [forkOf.key] as its key. *)
Definition has_parent (s : state) (c : loc) : Prop :=
  forall f, forkOf_of (cfgs s) c = Some f ->
    is_Some (find_key (cfgs s) (fork_key_of (forks s) f) (drives s)).

(** The keys of the registry, in order. *)
Definition registry_keys (s : state) : list (option string) :=
  key_of (cfgs s) <$> drives s.

(** What is stored at [/drives.json]. *)
Definition persisted (s : state) : option RegistryDocument :=
  fs_readFile (rootfs s) "/drives.json".

(** ** Calls in flight *)

(** A call of an [async] function: not made yet, suspended at an [await]
    with the rest of its body, or settled. *)
Inductive task :=
| Ready (p : prog unit)
| Waiting {R : Type} (o : op R) (k : R -> state -> res unit)
| Settled (c : completion unit).

Definition park (r : res unit) : state * task :=
  match r with
  | Fin s c => (s, Settled c)
  | Susp o s k => (s, Waiting o k)
  end.

(** One turn of the event loop given to a call: a call that was not made is
    made and runs to its first [await]; a suspended call whose awaited
    operation is answered runs on to its next [await].  A call that is not
    answered, or is settled, cannot take the turn. *)
Definition step_task (t : task) (s : state) : option (state * task) :=
  match t with
  | Ready p => Some (park (p s))
  | Waiting o k =>
      match handle o s with
      | Some (s', x) => Some (park (k x s'))
      | None => None
      end
  | Settled _ => None
  end.

(** Two calls sharing the state; the schedule says whose turn it is
    ([false]: the first call, [true]: the second). *)
Fixpoint exec (sched : list bool) (s : state) (t1 t2 : task) : option (state * task * task) :=
  match sched with
  | [] => Some (s, t1, t2)
  | false :: rest =>
      match step_task t1 s with
      | Some (s', t1') => exec rest s' t1' t2
      | None => None
      end
  | true :: rest =>
      match step_task t2 s with
      | Some (s', t2') => exec rest s' t1 t2'
      | None => None
      end
  end.

End Filesystem.

Arguments state FS : clear implicits.
Arguments res FS A : clear implicits.
Arguments prog FS A : clear implicits.
Arguments outcome FS A : clear implicits.
Arguments task FS : clear implicits.
Arguments Fin {FS A} s c.
Arguments Susp {FS A R} o s k.
Arguments Finished {FS A} s c.
Arguments Blocked {FS A} s.
Arguments Ready {FS} p.
Arguments Waiting {FS R} o k.
Arguments Settled {FS} c.

(** ** A root drive held in memory *)

Module MemoryDrive.

Inductive node :=
| Dir
| File (data : option RegistryDocument)
| Mount (key : string).

Definition drive := gmap string node.

Definition m_stat (fs : gmap string node) (p : string) : option Stat :=
  match fs !! p with
  | Some Dir => Some {| isDirectory := true; mount := None |}
  | Some (File _) => Some {| isDirectory := false; mount := None |}
  | Some (Mount k) => Some {| isDirectory := true; mount := Some k |}
  | None => None
  end.
Definition m_mkdir (fs : gmap string node) (p : string) : option (gmap string node) :=
  match fs !! p with
  | Some _ => None
  | None => Some (<[p := Dir]> fs)
  end.
Definition m_mount (fs : gmap string node) (p k : string) : option (gmap string node) :=
  match fs !! p with
  | Some _ => None
  | None => Some (<[p := Mount k]> fs)
  end.
Definition m_unmount (fs : gmap string node) (p : string) : option (gmap string node) :=
  match fs !! p with
  | Some (Mount _) => Some (delete p fs)
  | _ => None
  end.
Definition m_writeFile (fs : gmap string node) (p : string) (d : RegistryDocument)
    : option (gmap string node) :=
  match fs !! p with
  | Some Dir | Some (Mount _) => None
  | Some (File _) | None => Some (<[p := File (Some d)]> fs)
  end.
Definition m_readFile (fs : gmap string node) (p : string) : option RegistryDocument :=
  match fs !! p with
  | Some (File d) => d
  | _ => None
  end.

#[global] Instance memory_fs : RootFS (gmap string node) := {|
  fs_stat := m_stat; fs_mkdir := m_mkdir; fs_mount := m_mount;
  fs_unmount := m_unmount; fs_writeFile := m_writeFile; fs_readFile := m_readFile
|}.

(** A drive store that knows the listed urls. *)
Definition store (known : list (string * Drive)) : DriveStore :=
  {| fromURLToKey := fun url => drive_key <$> (list_to_map known : gmap string Drive) !! url;
     getOrLoadDrive := fun url => (list_to_map known : gmap string Drive) !! url |}.

Definition join (dir name : string) : string := dir +:+ "/" +:+ name.

(** A profile with an empty registry, and one where the user's answers to
    the coming prompts are known. *)
Definition init (fs : gmap string node) : state (gmap string node) :=
  {| drives := []; cfgs := []; forks := []; rootUrl := "hyper://00ff"; rootfs := fs;
     locks := []; network := ∅; focusedWindow := true; answers := []; trace := [] |}.
Definition asking (a : list (option PromptRes)) : state (gmap string node) :=
  set_answers a (init ∅).
(** A profile where the caller holds one [forkOf] object, at reference 0. *)
Definition holding (f : ForkOf) : state (gmap string node) :=
  set_forks (fun _ => [f]) (init ∅).

(** Drives: one with a plain manifest, a fork, and one whose manifest
    cannot be read. *)
Definition plain (k : string) (w : bool) : Drive :=
  {| drive_key := k; writable := w; drive_manifest := Some {| mf_forkOf := None |} |}.
Definition fork (k parentUrl : string) (w : bool) : Drive :=
  {| drive_key := k; writable := w;
     drive_manifest := Some {| mf_forkOf := Some parentUrl |} |}.
Definition unreadable (k : string) (w : bool) : Drive :=
  {| drive_key := k; writable := w; drive_manifest := None |}.

Definition world : DriveStore :=
  store [("hyper://aa", plain "aa" true); ("hyper://bb", fork "bb" "hyper://aa" false);
         ("hyper://cc", unreadable "cc" false); ("hyper://dd", plain "dd" false)].

End MemoryDrive.

(** ** Further notions *)

Section Notions.
Context {FS : Type} `{RootFS FS}.
Variable ds : DriveStore.
Variable joinPath : string -> string -> string.

(** The objects of the heap [h] are in [h'] with the keys they had. *)
Definition keeps_keys (h h' : list DriveConfig) : Prop :=
  forall c, c < length h -> key_of h' c = key_of h c.

(** A state without its log. *)
Definition without_trace (s : state FS) : state FS :=
  {| drives := drives s; cfgs := cfgs s; forks := forks s; rootUrl := rootUrl s;
     rootfs := rootfs s; locks := locks s; network := network s;
     focusedWindow := focusedWindow s; answers := answers s; trace := [] |}.

(** Every reference of [drives] is an object of the heap. *)
Definition well_formed (s : state FS) : Prop :=
  Forall (fun c => c < length (cfgs s)) (drives s).

(** [{announce: false, lookup: true}] *)
Definition unseed : NetworkConfig := {| announce := false; lookup := true |}.

(** Taking and releasing a lock. *)
Definition is_lock_event (e : event) : bool :=
  match e with
  | EvLock _ | EvRelease _ => true
  | _ => false
  end.
Definition lock_events (s s' : state FS) : list event :=
  filter (fun e => is_lock_event e = true) (new_events s s').

(** Calls of the drive store and the prompt. *)
Definition is_store_event (e : event) : bool :=
  match e with
  | EvGetOrLoadDrive _ | EvReadManifest _ | EvConfigureNetwork _ _ | EvPrompt _ _ => true
  | _ => false
  end.

(** A call that completes whatever the root drive answers, takes no lock
    and leaves the registry and the network configuration as they are. *)
Definition completes_aside (p : prog FS unit) (s : state FS) : Prop :=
  exists s', run ds p s = Finished s' (Normal tt) /\
    drives s' = drives s /\ cfgs s' = cfgs s /\ forks s' = forks s /\
    locks s' = locks s /\ network s' = network s /\ lock_events s s' = [].

(** A reconciler called twice: both calls complete, and unless the first
    one logged [failure], the second one changes nothing and issues no
    [mkdir], [mount] or [unmount]. *)
Definition idempotent (p : prog FS unit) (failure : string) (s : state FS) : Prop :=
  let s1 := final_state (run ds p s) in
  let s2 := final_state (run ds p s1) in
  run ds p s = Finished s1 (Normal tt) /\
  run ds p s1 = Finished s2 (Normal tt) /\
  (EvLogError failure ∉ new_events s s1 ->
   without_trace s2 = without_trace s1 /\ mutations s1 s2 = []).

(** The paths [getAvailableName] probes from round [i] on, [m] of them. *)
Definition probes (containingPath basename : string) (ext joiningChar : option string)
    (i : N) (m : nat) : list string :=
  (fun k => joinPath containingPath (candidate basename ext joiningChar (i + N.of_nat k)))
    <$> seq 0 m.

End Notions.

(** ** Calls in flight: who holds the lock *)

Section Serial.
Context {FS : Type} `{RootFS FS}.
Variable ds : DriveStore.

(** What a call does from where it is, when it runs alone from now on. *)
Definition run_task (t : task FS) (s : state FS) : outcome FS unit :=
  match t with
  | Ready p => run ds p s
  | Waiting o k => run_res ds (Susp o s k)
  | Settled c => Finished s c
  end.

(** The rest of a [try] block entered with the registry lock: the lock is
    held wherever the block is suspended and where it ends, whatever it is
    resumed with. *)
Fixpoint keeps_lock {A} (r : res FS A) : Prop :=
  match r with
  | Fin s _ => held "filesystem:drives" s = true
  | Susp _ s k =>
      held "filesystem:drives" s = true /\
      forall x s', held "filesystem:drives" s' = true -> keeps_lock (k x s')
  end.

Definition keeps_lock_prog {A} (p : prog FS A) : Prop :=
  forall s, held "filesystem:drives" s = true -> keeps_lock (p s).

(** The rest of a call that holds the registry lock: it holds it wherever
    it is suspended and has released it when it settles. *)
Fixpoint guarded {A} (r : res FS A) : Prop :=
  match r with
  | Fin s _ => held "filesystem:drives" s = false
  | Susp _ s k =>
      held "filesystem:drives" s = true /\
      forall x s', held "filesystem:drives" s' = true -> guarded (k x s')
  end.

Definition entered {R} (k : R -> state FS -> res FS unit) : Prop :=
  forall x s', held "filesystem:drives" s' = true -> guarded (k x s').

(** A call that first awaits the registry lock and does all the rest
    holding it. *)
Definition serial (p : prog FS unit) : Prop :=
  exists k, (forall s, p s = Susp (OLock "filesystem:drives") s k) /\ entered k.

Definition awaits_lock {R} (o : op R) : Prop :=
  match o with
  | OLock name => name = "filesystem:drives"
  | _ => False
  end.

(** A call that does not hold the lock: not made yet, waiting for the
    lock, or settled. *)
Definition outside (t : task FS) : Prop :=
  match t with
  | Ready p => serial p
  | Waiting o k => awaits_lock o /\ entered k
  | Settled _ => True
  end.

(** A call that holds the lock. *)
Definition inside (t : task FS) : Prop :=
  match t with
  | Waiting o k => entered k
  | _ => False
  end.

(** The calls that change the registry. *)
Inductive registry_call :=
| ConfigDrive (url : string) (forkOf : jsarg)
| RemoveDrive (url : string).

Definition call (r : registry_call) : prog FS unit :=
  match r with
  | ConfigDrive url forkOf => configDrive url forkOf
  | RemoveDrive url => removeDrive url
  end.

(** One call runs from where it is to its end, then the other. *)
Definition first_then (s : state FS) (t1 t2 : task FS) (c1 c2 : completion unit)
    (sf : state FS) : Prop :=
  exists s1, run_task t1 s = Finished s1 c1 /\ run_task t2 s1 = Finished sf c2.

End Serial.

(** ** More profiles and drives to run the calls on *)

Module Scenarios.

(** A profile whose registry holds the drive [dd], as [configDrive] left it. *)
Definition registered : state (gmap string MemoryDrive.node) :=
  final_state (run MemoryDrive.world (configDrive "hyper://dd" ArgUndefined)
                 (MemoryDrive.init ∅)).

(** A profile with no window in focus. *)
Definition unfocused : state (gmap string MemoryDrive.node) :=
  {| drives := []; cfgs := []; forks := []; rootUrl := "hyper://00ff"; rootfs := ∅;
     locks := []; network := ∅; focusedWindow := false; answers := []; trace := [] |}.


(** A root drive that takes no new mount. *)
Definition frozen_fs : RootFS (gmap string MemoryDrive.node) := {|
  fs_stat := MemoryDrive.m_stat; fs_mkdir := MemoryDrive.m_mkdir;
  fs_mount := fun _ _ _ => None; fs_unmount := MemoryDrive.m_unmount;
  fs_writeFile := MemoryDrive.m_writeFile; fs_readFile := MemoryDrive.m_readFile
|}.


(** A drive store that resolves the urls of [MemoryDrive.world] and loads
    no drive. *)
Definition offline : DriveStore :=
  {| fromURLToKey := fromURLToKey MemoryDrive.world; getOrLoadDrive := fun _ => None |}.

(** A root drive that gives up no mount. *)
Definition pinned_fs : RootFS (gmap string MemoryDrive.node) := {|
  fs_stat := MemoryDrive.m_stat; fs_mkdir := MemoryDrive.m_mkdir;
  fs_mount := MemoryDrive.m_mount; fs_unmount := fun _ _ => None;
  fs_writeFile := MemoryDrive.m_writeFile; fs_readFile := MemoryDrive.m_readFile
|}.

End Scenarios.

(** * Properties *)

(** ** Reading the heaps *)

Lemma key_of_alloc h c : key_of (h ++ [c]) (length h) = cfg_key c.
Proof. unfold key_of. by rewrite lookup_app_r, Nat.sub_diag by lia. Qed.

Lemma key_of_app_lt h k c : c < length h -> key_of (h ++ k) c = key_of h c.
Proof. intros Hc. unfold key_of. by rewrite lookup_app_l. Qed.

Lemma key_of_put_forkOf h v i c : key_of (alter (put_forkOf v) i h) c = key_of h c.
Proof.
  unfold key_of. destruct (decide (i = c)) as [->|].
  - rewrite list_lookup_alter_eq. by destruct (h !! c).
  - by rewrite list_lookup_alter_ne.
Qed.

Lemma key_of_valid h c k : key_of h c = Some k -> c < length h.
Proof.
  unfold key_of. intros Hk. apply lookup_lt_is_Some.
  destruct (h !! c); [eauto | done].
Qed.

Lemma forkOf_of_alloc h c : forkOf_of (h ++ [c]) (length h) = cfg_forkOf c.
Proof. unfold forkOf_of. by rewrite lookup_app_r, Nat.sub_diag by lia. Qed.

Lemma forkOf_of_app_lt h k c : c < length h -> forkOf_of (h ++ k) c = forkOf_of h c.
Proof. intros Hc. unfold forkOf_of. by rewrite lookup_app_l. Qed.

Lemma forkOf_of_put_eq h v c : c < length h -> forkOf_of (alter (put_forkOf v) c h) c = v.
Proof.
  intros Hc. unfold forkOf_of. rewrite list_lookup_alter_eq.
  apply lookup_lt_is_Some in Hc as [x Hx]. by rewrite Hx.
Qed.


Lemma forkOf_of_alter_alloc h c v :
  forkOf_of (alter (put_forkOf v) (length h) (h ++ [c])) (length h) = v.
Proof. apply forkOf_of_put_eq. rewrite length_app. simpl. lia. Qed.

Lemma fork_label_of_put_key fh f k f' :
  fork_label_of (alter (put_key k) f fh) f' = fork_label_of fh f'.
Proof.
  unfold fork_label_of. destruct (decide (f = f')) as [->|].
  - rewrite list_lookup_alter_eq. by destruct (fh !! f').
  - by rewrite list_lookup_alter_ne.
Qed.

Lemma fork_label_of_alloc fh f : fork_label_of (fh ++ [f]) (length fh) = fork_label f.
Proof. unfold fork_label_of. by rewrite lookup_app_r, Nat.sub_diag by lia. Qed.

Lemma fork_key_of_put_label fh f v f' :
  fork_key_of (alter (put_label v) f fh) f' = fork_key_of fh f'.
Proof.
  unfold fork_key_of. destruct (decide (f = f')) as [->|].
  - rewrite list_lookup_alter_eq. by destruct (fh !! f').
  - by rewrite list_lookup_alter_ne.
Qed.

Lemma fork_key_of_put_eq fh f k : f < length fh -> fork_key_of (alter (put_key k) f fh) f = k.
Proof.
  intros Hf. unfold fork_key_of. rewrite list_lookup_alter_eq.
  apply lookup_lt_is_Some in Hf as [x Hx]. by rewrite Hx.
Qed.

Lemma fork_key_of_alter_alloc fh f k :
  fork_key_of (alter (put_key k) (length fh) (fh ++ [f])) (length fh) = k.
Proof. apply fork_key_of_put_eq. rewrite length_app. simpl. lia. Qed.

Lemma truthy_None : truthy None = false.
Proof. reflexivity. Qed.

(** [find] sees only the keys. *)
Lemma find_key_ext h h' key arr :
  (forall c, c ∈ arr -> key_of h' c = key_of h c) ->
  find_key h' key arr = find_key h key arr.
Proof.
  unfold find_key. induction arr as [|d arr IH]; intros Hext; simpl; [done|].
  rewrite (Hext d) by left. rewrite IH; [done|].
  intros c Hc. apply Hext. by right.
Qed.

Lemma find_key_Some h key arr i c :
  find_key h key arr = Some (i, c) ->
  arr !! i = Some c /\ key_of h c = key /\
  forall j d, arr !! j = Some d -> j < i -> key_of h d ≠ key.
Proof. unfold find_key. by intros ?%list_find_Some. Qed.

Lemma find_key_None h key arr :
  find_key h key arr = None <-> forall c, c ∈ arr -> key_of h c ≠ key.
Proof. unfold find_key. rewrite list_find_None, Forall_forall. done. Qed.

Lemma find_key_is_Some h key arr c :
  c ∈ arr -> key_of h c = key -> is_Some (find_key h key arr).
Proof.
  intros Hc Hk. destruct (find_key h key arr) eqn:Hf; [eauto|].
  rewrite find_key_None in Hf. by destruct (Hf c Hc).
Qed.

Section Running.
Context {FS : Type} `{RootFS FS}.
Variable ds : DriveStore.

Local Abbreviation state := (state FS).
Local Abbreviation prog := (prog FS).
Local Abbreviation outcome := (outcome FS).
Local Abbreviation run := (run ds).
Local Abbreviation wp := (wp ds).
Local Abbreviation bind_post := (bind_post ds).
Local Abbreviation catch_post := (catch_post ds).

Lemma run_res_bind {A B} (r : res FS A) (f : A -> prog B) :
  run_res ds (bind_res r f) = and_then (run_res ds r) (fun a s => run (f a) s).
Proof.
  induction r as [s [a| |e]|R o s k IH]; simpl; try reflexivity.
  destruct (handle ds o s) as [[s' x]|]; [apply IH | reflexivity].
Qed.

Lemma run_bind {A B} (p : prog A) (f : A -> prog B) s :
  run (p ≫= f) s = and_then (run p s) (fun a s' => run (f a) s').
Proof. apply run_res_bind. Qed.

Lemma run_ret {A} (a : A) s : run (mret a) s = Finished s (Normal a).
Proof. reflexivity. Qed.
Lemma run_gets {A} (f : state -> A) s : run (gets f) s = Finished s (Normal (f s)).
Proof. reflexivity. Qed.
Lemma run_modify f s : run (modify f) s = Finished (f s) (Normal tt).
Proof. reflexivity. Qed.
Lemma run_throw {A} e s : run (throw e : prog A) s = Finished s (Throw e).
Proof. reflexivity. Qed.
Lemma run_return {A} s : run (return_ : prog A) s = Finished s Return.
Proof. reflexivity. Qed.

Lemma run_await {R} (o : op R) s :
  run (await o) s =
  match handle ds o s with
  | Some (s', x) => Finished s' (Normal x)
  | None => Blocked s
  end.
Proof. unfold run, await; simpl. by destruct (handle ds o s) as [[??]|]. Qed.

Lemma run_awaitT {R} what (o : op (option R)) s :
  run (awaitT what o) s =
  match handle ds o s with
  | Some (s', Some x) => Finished s' (Normal x)
  | Some (s', None) => Finished s' (Throw (Rejected what))
  | None => Blocked s
  end.
Proof.
  unfold awaitT. rewrite run_bind, run_await.
  by destruct (handle ds o s) as [[? [?|]]|].
Qed.

Lemma run_try_finally {A} (body : prog A) fin s :
  run (try_finally body fin) s = and_finally (run body s) (run fin).
Proof.
  unfold run, try_finally. induction (body s) as [s' c|R o s' k IH]; simpl.
  - rewrite run_res_bind. unfold run.
    by destruct (run_res ds (fin s')) as [? [[]| |]|].
  - destruct (handle ds o s') as [[??]|]; [apply IH | reflexivity].
Qed.

Lemma run_try_catch {A} (body : prog A) handler s :
  run (try_catch body handler) s = or_catch (run body s) (fun e s' => run (handler e) s').
Proof.
  unfold run, try_catch. induction (body s) as [s' [a| |e]|R o s' k IH]; simpl; try reflexivity.
  destruct (handle ds o s') as [[??]|]; [apply IH | reflexivity].
Qed.

Lemma run_when b (p : prog unit) s :
  run (when b p) s = if b then run p s else Finished s (Normal tt).
Proof. by destruct b. Qed.

Lemma wp_elim {A} (p : prog A) Q s s' c :
  wp True p Q s -> run p s = Finished s' c -> Q c s'.
Proof. rewrite wp_unseal. unfold wp_def. intros Hwp Hrun. by rewrite Hrun in Hwp. Qed.

Lemma wp_total {A} (p : prog A) Q s :
  wp False p Q s -> exists s' c, run p s = Finished s' c /\ Q c s'.
Proof. rewrite wp_unseal. unfold wp_def. destruct (run p s) as [s' c|]; [eauto | done]. Qed.

Lemma wp_mono {A} blk (p : prog A) (Q Q' : completion A -> state -> Prop) s :
  wp blk p Q s -> (forall c s', Q c s' -> Q' c s') -> wp blk p Q' s.
Proof. rewrite !wp_unseal. unfold wp_def. destruct (run p s); eauto. Qed.

Lemma wp_bind {A B} blk (p : prog A) (f : A -> prog B) Q s :
  wp blk p (bind_post blk f Q) s -> wp blk (p ≫= f) Q s.
Proof.
  rewrite !wp_unseal. unfold wp_def. rewrite run_bind.
  destruct (run p s) as [s' [a| |e]|]; simpl; try done.
  by rewrite wp_unseal.
Qed.

Lemma wp_ret {A} blk (a : A) Q s : Q (Normal a) s -> wp blk (mret a) Q s.
Proof. by rewrite wp_unseal. Qed.
Lemma wp_gets {A} blk (f : state -> A) Q s : Q (Normal (f s)) s -> wp blk (gets f) Q s.
Proof. by rewrite wp_unseal. Qed.
Lemma wp_modify blk f Q s : Q (Normal tt) (f s) -> wp blk (modify f) Q s.
Proof. by rewrite wp_unseal. Qed.
Lemma wp_throw {A} blk e (Q : completion A -> state -> Prop) s :
  Q (Throw e) s -> wp blk (throw e) Q s.
Proof. by rewrite wp_unseal. Qed.
Lemma wp_return {A} blk (Q : completion A -> state -> Prop) s :
  Q Return s -> wp blk return_ Q s.
Proof. by rewrite wp_unseal. Qed.
Lemma wp_new_cfg blk c Q s :
  Q (Normal (length (cfgs s))) (set_cfgs (fun h => h ++ [c]) s) -> wp blk (new_cfg c) Q s.
Proof. by rewrite wp_unseal. Qed.
Lemma wp_new_fork blk f Q s :
  Q (Normal (length (forks s))) (set_forks (fun h => h ++ [f]) s) -> wp blk (new_fork f) Q s.
Proof. by rewrite wp_unseal. Qed.

Lemma wp_await {R} blk (o : op R) Q s :
  match handle ds o s with
  | Some (s', x) => Q (Normal x) s'
  | None => blk
  end ->
  wp blk (await o) Q s.
Proof.
  rewrite wp_unseal. unfold wp_def. rewrite run_await.
  by destruct (handle ds o s) as [[??]|].
Qed.

Lemma wp_awaitT {R} blk what (o : op (option R)) Q s :
  match handle ds o s with
  | Some (s', Some x) => Q (Normal x) s'
  | Some (s', None) => Q (Throw (Rejected what)) s'
  | None => blk
  end ->
  wp blk (awaitT what o) Q s.
Proof.
  rewrite wp_unseal. unfold wp_def. rewrite run_awaitT.
  by destruct (handle ds o s) as [[? [?|]]|].
Qed.

Lemma wp_try_finally {A} blk (body : prog A) fin Q s :
  wp blk body (fun c s1 => wp blk fin (after_finally Q c) s1) s ->
  wp blk (try_finally body fin) Q s.
Proof.
  rewrite !wp_unseal. unfold wp_def. rewrite run_try_finally.
  destruct (run body s) as [s1 c|]; [|done].
  rewrite wp_unseal. unfold wp_def. simpl. by destruct (run fin s1) as [s2 [[]| |e]|].
Qed.

Lemma wp_try_catch {A} blk (body : prog A) handler Q s :
  wp blk body (catch_post blk handler Q) s -> wp blk (try_catch body handler) Q s.
Proof.
  rewrite !wp_unseal. unfold wp_def. rewrite run_try_catch.
  destruct (run body s) as [s1 [a| |e]|]; simpl; try done.
  by rewrite wp_unseal.
Qed.

Lemma wp_when blk (b : bool) (p : prog unit) (Q : completion unit -> state -> Prop) s :
  (if b then wp blk p Q s else Q (Normal tt) s) -> wp blk (when b p) Q s.
Proof. destruct b; [done|]. by rewrite wp_unseal. Qed.

Lemma run_new_cfg c (s : state) :
  run (new_cfg c) s = Finished (set_cfgs (fun h => h ++ [c]) s) (Normal (length (cfgs s))).
Proof. reflexivity. Qed.
Lemma run_new_fork f (s : state) :
  run (new_fork f) s = Finished (set_forks (fun h => h ++ [f]) s) (Normal (length (forks s))).
Proof. reflexivity. Qed.

End Running.

(** Symbolic execution of a body: the rule of the construct at the head,
    then the fields of the state that the rule exposes are reduced; a test
    on something unknown is split, unless a hypothesis or the heap tells
    what it is. *)
Ltac wp_red :=
  cbn beta iota;
  cbn [bind_post after_finally catch_post];
  cbn [handle]; unfold settle_fs; cbn beta iota;
  cbn [drives cfgs forks rootUrl rootfs locks network focusedWindow answers trace
       set_drives set_cfgs set_forks set_rootfs set_locks set_network set_answers emit];
  cbn [fmap option_fmap option_map fst snd negb].
Ltac heap_red :=
  rewrite ?forkOf_of_alter_alloc, ?forkOf_of_alloc, ?fork_label_of_put_key,
    ?fork_label_of_alloc, ?key_of_alloc, ?fork_key_of_put_label, ?fork_key_of_alter_alloc;
  cbn [cfg_key cfg_forkOf fork_key fork_label]; rewrite ?truthy_None.
Ltac head_of t :=
  lazymatch t with
  | ?f _ => head_of f
  | _ => t
  end.
Ltac split_on x :=
  lazymatch goal with
  | H : x = _ |- _ => rewrite H
  | _ => destruct x eqn:?
  end.
Ltac destruct_innermost x :=
  lazymatch x with
  | context [match ?y with _ => _ end] => destruct_innermost y
  | fmap _ ?y => destruct_innermost y
  | negb ?y => destruct_innermost y
  | context [forkOf_of] => first [progress heap_red | split_on x]
  | context [fork_label_of] => first [progress heap_red | split_on x]
  | context [fork_key_of] => first [progress heap_red | split_on x]
  | context [key_of] => first [progress heap_red | split_on x]
  | _ => split_on x
  end.
Ltac wp_head p :=
  lazymatch p with
  | mbind _ _ => apply wp_bind
  | mret _ => apply wp_ret
  | gets _ => apply wp_gets
  | modify _ => apply wp_modify
  | throw _ => apply wp_throw
  | return_ => apply wp_return
  | new_cfg _ => apply wp_new_cfg
  | new_fork _ => apply wp_new_fork
  | await _ => apply wp_await
  | awaitT _ _ => apply wp_awaitT
  | try_finally _ _ => apply wp_try_finally
  | try_catch _ _ => apply wp_try_catch
  | when _ _ => apply wp_when
  | match ?x with _ => _ end => destruct_innermost x
  | _ => let h := head_of p in unfold h
  end.
Ltac wp_step :=
  lazymatch goal with
  | |- wp _ _ ?p _ _ => wp_head p; wp_red
  | |- match ?x with _ => _ end => destruct_innermost x; wp_red
  end.
Ltac wp_exec := wp_red; repeat wp_step; try exact I.

(** The events of a call, once its final state is known. *)
Ltac events_norm :=
  unfold mutations, new_events;
  cbn [trace set_drives set_cfgs set_forks set_rootfs set_locks set_network set_answers emit];
  rewrite <- ?app_assoc; cbn [app]; rewrite ?drop_app_length, ?drop_all.
Ltac events_norm_in H :=
  unfold mutations, new_events in H;
  cbn [trace set_drives set_cfgs set_forks set_rootfs set_locks set_network set_answers emit] in H;
  rewrite <- ?app_assoc in H; cbn [app] in H; rewrite ?drop_app_length, ?drop_all in H.
Ltac elem_cases H :=
  repeat (apply elem_of_cons in H as [H|H]; [try discriminate H|]);
  try (apply elem_of_nil in H; destruct H).

(** * The registry *)

Section Registry.
Context {FS : Type} `{RootFS FS}.
Variable ds : DriveStore.

Local Abbreviation state := (state FS).
Local Abbreviation run := (run ds).
Local Abbreviation wp := (wp ds).

Lemma held_unlock name (s : state) :
  held name (set_locks (filter (fun n => n ≠ name)) s) = false.
Proof.
  unfold held. cbn [locks set_locks]. apply bool_decide_eq_false.
  rewrite list_elem_of_filter. tauto.
Qed.

Lemma unlock_lock name (s : state) :
  held name s = false -> filter (fun n => n ≠ name) (name :: locks s) = locks s.
Proof.
  unfold held. generalize (locks s). intros l.
  intros Hn%bool_decide_eq_false. rewrite filter_cons_False by (intros ?; done).
  induction l as [|x l IH]; [done|].
  rewrite not_elem_of_cons in Hn. destruct Hn as [Hx Hl].
  rewrite filter_cons_True by done. by rewrite IH.
Qed.

(** A manifest that cannot be read: [readManifest().catch(_ => {})] gives
    [undefined], and [manifest.forkOf] throws.  The entry was built but is
    not appended, and nothing is written. *)
Lemma configDrive_unreadable s url forkOf key drive :
  held "filesystem:drives" s = false ->
  fromURLToKey ds url = Some key ->
  find_key (cfgs s) (Some key) (drives s) = None ->
  getOrLoadDrive ds url = Some drive ->
  drive_manifest drive = None ->
  exists s',
    run (configDrive url forkOf) s =
      Finished s' (Throw (TypeError "Cannot read property 'forkOf' of undefined")) /\
    drives s' = drives s /\ rootfs s' = rootfs s /\ locks s' = locks s /\
    mutations s s' = [].
Proof.
  intros Hl Hk Hf Hd Hm.
  destruct (wp_total ds (configDrive url forkOf)
    (fun c s' => c = Throw (TypeError "Cannot read property 'forkOf' of undefined") /\
       drives s' = drives s /\ rootfs s' = rootfs s /\ locks s' = locks s /\
       mutations s s' = []) s) as (s' & c & Hrun & -> & Hrest).
  - wp_exec.
    all: repeat split; try reflexivity; try (by apply unlock_lock); events_norm; reflexivity.
  - eauto.
Qed.

(** C10. A call for a drive that is not registered and not writable
    configures the network to announce before the fork-label prompt is
    shown; when the prompt is then declined the call returns with the drive
    still configured to announce, and with no entry and no write. *)
Theorem configDrive_seeds_before_prompt s url forkOf key drive s' c message answer :
  fromURLToKey ds url = Some key ->
  find_key (cfgs s) (Some key) (drives s) = None ->
  getOrLoadDrive ds url = Some drive ->
  writable drive = false ->
  run (configDrive url forkOf) s = Finished s' c ->
  EvPrompt message answer ∈ new_events s s' ->
  (exists before after,
     new_events s s' = before ++ EvPrompt message answer :: after /\
     EvConfigureNetwork (drive_key drive) seed ∈ before) /\
  (declined answer ->
     c = Return /\
     network s' !! drive_key drive = Some seed /\
     drives s' = drives s /\ rootfs s' = rootfs s /\ mutations s s' = []).
Proof.
  intros Hk Hf Hd Hw Hrun. revert message answer.
  refine (wp_elim ds _ (fun c s' => forall m a, _ -> _) _ _ _ _ Hrun). clear Hrun.
  wp_exec.
  all: intros ? ? Hin; events_norm_in Hin; elem_cases Hin.
  all: simplify_eq.
  all: (split; [eexists [_; _; _; _; _; _], _; split; [events_norm; reflexivity|set_solver]|]).
  all: intros Hdec; cbn [declined] in Hdec; try congruence.
  all: repeat split; try reflexivity; try apply lookup_insert_eq.
  all: events_norm; reflexivity.
Qed.

Lemma run_getDriveConfig key (s : state) :
  run (getDriveConfig key) s =
  Finished s (Normal (snd <$> find_key (cfgs s) (Some key) (drives s))).
Proof. reflexivity. Qed.

Lemma find_key_app_l h key arr arr' r :
  find_key h key arr = Some r -> find_key h key (arr ++ arr') = Some r.
Proof. destruct r. apply list_find_app_l. Qed.

Lemma lineage_established (s' : state) c f key parentKey :
  last (drives s') = Some c ->
  key_of (cfgs s') c = Some key ->
  forkOf_of (cfgs s') c = Some f ->
  fork_key_of (forks s') f = Some parentKey ->
  is_Some (find_key (cfgs s') (Some parentKey) (drives s')) ->
  last (drives s') = Some c /\
  key_of (cfgs s') c = Some key /\
  forkOf_of (cfgs s') c = Some f /\
  fork_key_of (forks s') f = Some parentKey /\
  has_parent s' c /\
  exists p, run (getDriveConfig parentKey) s' = Finished s' (Normal (Some p)) /\
            key_of (cfgs s') p = Some parentKey.
Proof.
  intros Hlast Hkey Hfork Hfk [[i p] Hfind]. repeat split; try done.
  - intros f' Hf'. rewrite Hfork in Hf'. injection Hf' as <-. rewrite Hfk. eauto.
  - exists p. rewrite run_getDriveConfig, Hfind. split; [done|].
    by apply find_key_Some in Hfind as (_ & ? & _).
Qed.

(** C1, as the code has it. On the path that adds an entry for a drive
    whose manifest names a fork parent, a call that completes leaves the
    new entry last in [drives], with a [forkOf] whose [key] is the key of
    the parent url, and [getDriveConfig] of that key finds an entry.  (The
    two other places that set [forkOf] store what the caller gave and do
    not look for the parent.) *)
Theorem configDrive_manifest_fork_has_parent s url forkOf key drive m parentUrl s' :
  fromURLToKey ds url = Some key ->
  find_key (cfgs s) (Some key) (drives s) = None ->
  getOrLoadDrive ds url = Some drive ->
  drive_manifest drive = Some m ->
  mf_forkOf m = Some parentUrl ->
  truthy (Some parentUrl) = true ->
  (forall f, forkOf = ArgObject f -> f < length (forks s)) ->
  run (configDrive url forkOf) s = Finished s' (Normal tt) ->
  exists c f parentKey,
    fromURLToKey ds parentUrl = Some parentKey /\
    last (drives s') = Some c /\
    key_of (cfgs s') c = Some key /\
    forkOf_of (cfgs s') c = Some f /\
    fork_key_of (forks s') f = Some parentKey /\
    has_parent s' c /\
    exists p, run (getDriveConfig parentKey) s' = Finished s' (Normal (Some p)) /\
              key_of (cfgs s') p = Some parentKey.
Proof.
  intros Hk Hf Hd Hm Hmf Hp Hvalid Hrun.
  cut (exists c f parentKey,
    fromURLToKey ds parentUrl = Some parentKey /\
    last (drives s') = Some c /\
    key_of (cfgs s') c = Some key /\
    forkOf_of (cfgs s') c = Some f /\
    fork_key_of (forks s') f = Some parentKey /\
    is_Some (find_key (cfgs s') (Some parentKey) (drives s'))).
  { intros (c & f & pk & ? & ? & ? & ? & ? & ?). exists c, f, pk.
    split; [done|]. by apply lineage_established. }
  refine (wp_elim ds _ (fun c s' => c = Normal tt -> _) _ _ _ _ Hrun eq_refl). clear Hrun.
  wp_exec.
  all: intros Hc; try discriminate Hc; clear Hc.
  all: try (specialize (Hvalid _ eq_refl)).
  all: eexists _, _, _; (split; [first [eassumption | reflexivity]|]).
  all: (split; [rewrite last_snoc; reflexivity|]).
  all: (split; [rewrite ?key_of_app_lt by (rewrite length_alter, length_app; simpl; lia);
                rewrite key_of_put_forkOf, key_of_alloc; reflexivity|]).
  all: (split; [rewrite ?forkOf_of_app_lt by (rewrite length_alter, length_app; simpl; lia);
                rewrite forkOf_of_alter_alloc; reflexivity|]).
  all: rewrite ?fork_key_of_put_label in *.
  all: try rewrite fork_key_of_alter_alloc.
  all: try rewrite (fork_key_of_put_eq _ _ _ Hvalid) in *.
  all: (split; [reflexivity|]).
  all: first
    [ match goal with
      | Hfind : find_key _ _ (drives _) = Some _ |- _ =>
          rewrite (find_key_app_l _ _ _ _ _ Hfind); eauto
      end
    | eapply find_key_is_Some; cycle 1;
      [ apply key_of_alloc
      | rewrite !elem_of_app, !list_elem_of_singleton; eauto ] ].
Qed.

End Registry.

(** C2. A call for a url that is not registered and whose drive has no
    readable manifest does not complete: it throws a [TypeError], nothing
    is appended to [drives] and nothing is written. *)
Theorem configDrive_unreadable_manifest_fails :
  exists s',
    run MemoryDrive.world (configDrive "hyper://cc" ArgUndefined) (MemoryDrive.init ∅) =
      Finished s' (Throw (TypeError "Cannot read property 'forkOf' of undefined")) /\
    drives s' = [] /\ persisted s' = None /\ mutations (MemoryDrive.init ∅) s' = [].
Proof.
  destruct (configDrive_unreadable MemoryDrive.world (MemoryDrive.init ∅) "hyper://cc"
    ArgUndefined "cc" (MemoryDrive.unreadable "cc" false))
    as (s' & Hrun & Hd & Hfs & _ & Hmut); try (vm_compute; reflexivity).
  exists s'. unfold persisted. rewrite Hfs. auto.
Qed.

Lemma configDrive_seeds_before_prompt_witness :
  let s := MemoryDrive.asking [None] in
  let d := MemoryDrive.fork "bb" "hyper://aa" false in
  let s' := final_state (run MemoryDrive.world (configDrive "hyper://bb" ArgUndefined) s) in
  fromURLToKey MemoryDrive.world "hyper://bb" = Some "bb" /\
  find_key (cfgs s) (Some "bb") (drives s) = None /\
  getOrLoadDrive MemoryDrive.world "hyper://bb" = Some d /\
  writable d = false /\
  run MemoryDrive.world (configDrive "hyper://bb" ArgUndefined) s = Finished s' Return /\
  EvPrompt prompt_message None ∈ new_events s s' /\
  ((exists before after,
      new_events s s' = before ++ EvPrompt prompt_message None :: after /\
      EvConfigureNetwork (drive_key d) seed ∈ before) /\
   (declined None ->
      @Return unit = Return /\
      network s' !! drive_key d = Some seed /\
      drives s' = drives s /\ rootfs s' = rootfs s /\ mutations s s' = [])).
Proof.
  intros s d s'.
  assert (Hk : fromURLToKey MemoryDrive.world "hyper://bb" = Some "bb")
    by (vm_compute; reflexivity).
  assert (Hf : find_key (cfgs s) (Some "bb") (drives s) = None) by (vm_compute; reflexivity).
  assert (Hd : getOrLoadDrive MemoryDrive.world "hyper://bb" = Some d)
    by (vm_compute; reflexivity).
  assert (Hw : writable d = false) by reflexivity.
  assert (Hrun : run MemoryDrive.world (configDrive "hyper://bb" ArgUndefined) s =
                 Finished s' Return) by (vm_compute; reflexivity).
  assert (Hin : EvPrompt prompt_message None ∈ new_events s s') by (vm_compute; repeat constructor).
  do 6 (split; [assumption|]).
  exact (configDrive_seeds_before_prompt MemoryDrive.world s "hyper://bb" ArgUndefined "bb" d
    s' Return prompt_message None Hk Hf Hd Hw Hrun Hin).
Defined.

(** C1 does not hold as stated: an entry added with a [forkOf] the caller
    gave, for a drive whose manifest names no parent, has no parent entry;
    neither has an existing entry whose [forkOf] the caller replaces. *)
Lemma configDrive_lineage_counterexample :
  let s := MemoryDrive.holding {| fork_key := Some "ee"; fork_label := Some "dev" |} in
  let s' := final_state (run MemoryDrive.world (configDrive "hyper://dd" (ArgObject 0)) s) in
  let s1 := final_state (run MemoryDrive.world (configDrive "hyper://dd" ArgUndefined) s) in
  let s2 := final_state (run MemoryDrive.world (configDrive "hyper://dd" (ArgObject 0)) s1) in
  (run MemoryDrive.world (configDrive "hyper://dd" (ArgObject 0)) s = Finished s' (Normal tt) /\
   drives s' = [0] /\ key_of (cfgs s') 0 = Some "dd" /\
   forkOf_of (cfgs s') 0 = Some 0 /\ fork_key_of (forks s') 0 = Some "ee" /\
   ~ has_parent s' 0 /\
   run MemoryDrive.world (getDriveConfig "ee") s' = Finished s' (Normal None)) /\
  (run MemoryDrive.world (configDrive "hyper://dd" ArgUndefined) s = Finished s1 (Normal tt) /\
   run MemoryDrive.world (configDrive "hyper://dd" (ArgObject 0)) s1 = Finished s2 (Normal tt) /\
   drives s2 = [0] /\ key_of (cfgs s2) 0 = Some "dd" /\
   forkOf_of (cfgs s2) 0 = Some 0 /\ fork_key_of (forks s2) 0 = Some "ee" /\
   ~ has_parent s2 0 /\
   run MemoryDrive.world (getDriveConfig "ee") s2 = Finished s2 (Normal None)).
Proof.
  intros s s' s1 s2. split.
  - do 5 (split; [vm_compute; reflexivity|]). split; [|vm_compute; reflexivity].
    intros Hp.
    assert (Hfork : forkOf_of (cfgs s') 0 = Some 0) by (vm_compute; reflexivity).
    destruct (Hp 0 Hfork) as [x Hx]. vm_compute in Hx. discriminate.
  - do 6 (split; [vm_compute; reflexivity|]). split; [|vm_compute; reflexivity].
    intros Hp.
    assert (Hfork : forkOf_of (cfgs s2) 0 = Some 0) by (vm_compute; reflexivity).
    destruct (Hp 0 Hfork) as [x Hx]. vm_compute in Hx. discriminate.
Qed.

Lemma configDrive_manifest_fork_has_parent_witness :
  let s := MemoryDrive.asking [Some (PromptObject (Some "dev"))] in
  let d := MemoryDrive.fork "bb" "hyper://aa" false in
  let m := {| mf_forkOf := Some "hyper://aa" |} in
  let s' := final_state (run MemoryDrive.world (configDrive "hyper://bb" ArgUndefined) s) in
  fromURLToKey MemoryDrive.world "hyper://bb" = Some "bb" /\
  find_key (cfgs s) (Some "bb") (drives s) = None /\
  getOrLoadDrive MemoryDrive.world "hyper://bb" = Some d /\
  drive_manifest d = Some m /\
  mf_forkOf m = Some "hyper://aa" /\
  truthy (Some "hyper://aa") = true /\
  (forall f, ArgUndefined = ArgObject f -> f < length (forks s)) /\
  run MemoryDrive.world (configDrive "hyper://bb" ArgUndefined) s = Finished s' (Normal tt) /\
  exists c f parentKey,
    fromURLToKey MemoryDrive.world "hyper://aa" = Some parentKey /\
    last (drives s') = Some c /\
    key_of (cfgs s') c = Some "bb" /\
    forkOf_of (cfgs s') c = Some f /\
    fork_key_of (forks s') f = Some parentKey /\
    has_parent s' c /\
    exists p, run MemoryDrive.world (getDriveConfig parentKey) s' =
                Finished s' (Normal (Some p)) /\
              key_of (cfgs s') p = Some parentKey.
Proof.
  intros s d m s'.
  assert (Hk : fromURLToKey MemoryDrive.world "hyper://bb" = Some "bb")
    by (vm_compute; reflexivity).
  assert (Hf : find_key (cfgs s) (Some "bb") (drives s) = None) by (vm_compute; reflexivity).
  assert (Hd : getOrLoadDrive MemoryDrive.world "hyper://bb" = Some d)
    by (vm_compute; reflexivity).
  assert (Hm : drive_manifest d = Some m) by reflexivity.
  assert (Hmf : mf_forkOf m = Some "hyper://aa") by reflexivity.
  assert (Hp : truthy (Some "hyper://aa") = true) by (vm_compute; reflexivity).
  assert (Hvalid : forall f, ArgUndefined = ArgObject f -> f < length (forks s))
    by (intros f Hf'; discriminate Hf').
  assert (Hrun : run MemoryDrive.world (configDrive "hyper://bb" ArgUndefined) s =
                 Finished s' (Normal tt)) by (vm_compute; reflexivity).
  do 8 (split; [assumption|]).
  exact (configDrive_manifest_fork_has_parent MemoryDrive.world s "hyper://bb" ArgUndefined
    "bb" d m "hyper://aa" s' Hk Hf Hd Hm Hmf Hp Hvalid Hrun).
Defined.

(** * More of the registry, the reconcilers and the name search *)

(** ** Frames *)

Ltac state_red :=
  cbn [drives cfgs forks rootUrl rootfs locks network focusedWindow answers trace
       set_drives set_cfgs set_forks set_rootfs set_locks set_network set_answers emit].
Ltac heap_length :=
  repeat first [rewrite length_app | rewrite length_alter]; simpl; lia.

(** The events of a call that started where an earlier call ended. *)
Ltac events_rel :=
  unfold mutations, new_events;
  cbn [trace set_drives set_cfgs set_forks set_rootfs set_locks set_network set_answers emit];
  rewrite <- ?app_assoc; cbn [app];
  rewrite ?length_app, <- ?drop_drop, ?drop_app_length; cbn [length drop].
Ltac without_trace_red :=
  unfold without_trace;
  cbn [drives cfgs forks rootUrl rootfs locks network focusedWindow answers trace
       set_drives set_cfgs set_forks set_rootfs set_locks set_network set_answers emit].

Section Frames.
Context {FS : Type} `{RootFS FS}.
Variable ds : DriveStore.

Local Abbreviation state := (state FS).
Local Abbreviation run := (run ds).

Lemma without_trace_eq (s s' : state) :
  drives s' = drives s -> cfgs s' = cfgs s -> forks s' = forks s ->
  rootUrl s' = rootUrl s -> rootfs s' = rootfs s -> locks s' = locks s ->
  network s' = network s -> focusedWindow s' = focusedWindow s ->
  answers s' = answers s ->
  without_trace s' = without_trace s.
Proof. unfold without_trace. by intros -> -> -> -> -> -> -> -> ->. Qed.

Lemma JSON_stringify_eq (s s' : state) :
  drives s' = drives s -> cfgs s' = cfgs s -> forks s' = forks s ->
  JSON_stringify s' = JSON_stringify s.
Proof. unfold JSON_stringify. by intros -> -> ->. Qed.

Lemma alter_alloc {A} (f : A -> A) (l : list A) (x : A) :
  alter f (length l) (l ++ [x]) = l ++ [f x].
Proof. induction l as [|y l IH]; [done|]. cbn. by rewrite IH. Qed.

Lemma delete_snoc {A} (l : list A) (x : A) : delete (length l) (l ++ [x]) = l.
Proof. induction l as [|y l IH]; [done|]. simpl. f_equal. exact IH. Qed.


Lemma slice_prefix (p k : string) : slice (String.length p) (p +:+ k) = k.
Proof. induction p as [|a p IH]; [done|]. exact IH. Qed.

Lemma keeps_keys_refl h : keeps_keys h h.
Proof. by intros c. Qed.

Lemma keeps_keys_app h h' k : keeps_keys h h' -> length h ≤ length h' -> keeps_keys h (h' ++ k).
Proof. intros Hk Hl c Hc. rewrite key_of_app_lt by lia. by apply Hk. Qed.

Lemma keeps_keys_put h h' v i : keeps_keys h h' -> keeps_keys h (alter (put_forkOf v) i h').
Proof. intros Hk c Hc. rewrite key_of_put_forkOf. by apply Hk. Qed.

Lemma find_key_well_formed (s : state) h' key :
  well_formed s -> keeps_keys (cfgs s) h' ->
  find_key h' key (drives s) = find_key (cfgs s) key (drives s).
Proof.
  intros Hwf Hk. apply find_key_ext. intros c Hc. apply Hk.
  unfold well_formed in Hwf. rewrite Forall_forall in Hwf. by apply Hwf.
Qed.

Lemma find_key_mono h h' k arr arr' :
  keeps_keys h h' -> arr `prefix_of` arr' ->
  is_Some (find_key h (Some k) arr) -> is_Some (find_key h' (Some k) arr').
Proof.
  intros Hk [rest ->] [[i c] Hfind].
  apply find_key_Some in Hfind as (Hi & Hc & _).
  apply find_key_is_Some with c.
  - apply elem_of_app. left. by eapply list_elem_of_lookup_2.
  - rewrite Hk; [done|]. by eapply key_of_valid.
Qed.

(** After [splice] at the place [find] gave, [find] looks on from there. *)
Lemma find_key_delete h key arr i c :
  find_key h key arr = Some (i, c) ->
  snd <$> find_key h key (delete i arr) = snd <$> find_key h key (drop (S i) arr).
Proof.
  intros (Hi & _ & Hbefore)%find_key_Some. unfold find_key.
  rewrite delete_take_drop, list_find_app_r.
  - by destruct (list_find _ (drop (S i) arr)) as [[]|].
  - apply list_find_None, Forall_forall. intros d Hd.
    apply list_elem_of_lookup in Hd as [j Hj].
    apply lookup_take_Some in Hj as [Hj Hlt]. by eapply Hbefore.
Qed.

Lemma find_key_unique h key arr i c :
  find_key h (Some key) arr = Some (i, c) ->
  NoDup (key_of h <$> arr) ->
  find_key h (Some key) (drop (S i) arr) = None.
Proof.
  intros (Hi & Hc & _)%find_key_Some Hnd.
  apply find_key_None. intros d Hd Hkey.
  apply list_elem_of_lookup in Hd as [j Hj]. rewrite lookup_drop in Hj.
  assert (i = S i + j); [|lia].
  eapply (NoDup_lookup _ _ _ (Some key) Hnd); rewrite list_lookup_fmap.
  - by rewrite Hi; cbn; rewrite Hc.
  - by rewrite Hj; cbn; rewrite Hkey.
Qed.

Lemma find_key_snoc h key arr c :
  find_key h key arr = None -> key_of h c = key ->
  find_key h key (arr ++ [c]) = Some (length arr, c).
Proof.
  intros Hnone Hc. unfold find_key in *. rewrite list_find_app_r by done.
  cbn. rewrite decide_True by done. cbn. by rewrite ?Nat.add_0_r.
Qed.

(** The document shows [drives], the entries behind it and their [forkOf] objects, nothing else. *)
Lemma JSON_stringify_frame (s s' : state) :
  well_formed s -> drives s' = drives s -> forks s' = forks s ->
  (forall c, c < length (cfgs s) -> cfgs s' !! c = cfgs s !! c) ->
  JSON_stringify s' = JSON_stringify s.
Proof.
  intros Hwf Hd Hfk Hc. unfold JSON_stringify. rewrite Hd, Hfk. f_equal.
  apply list_fmap_ext. intros _ c Hin%list_elem_of_lookup_2.
  unfold well_formed in Hwf. rewrite Forall_forall in Hwf.
  unfold stringify_entry, key_of, forkOf_of. by rewrite (Hc c (Hwf c Hin)).
Qed.


End Frames.

(** The document of a later state is the one that was written. *)
Ltac stringify_norm :=
  repeat match goal with
  | Hw : fs_writeFile _ _ (JSON_stringify ?X) = _ |- context [JSON_stringify ?Y] =>
      lazymatch Y with X => fail | _ => idtac end;
      rewrite (JSON_stringify_eq X Y) by (state_red; reflexivity)
  end.
Ltac written :=
  match goal with
  | Hw : fs_writeFile _ _ (JSON_stringify _) = _ |- _ => rewrite Hw
  end.
Ltac same_state :=
  apply without_trace_eq; state_red; try reflexivity; try (by apply unlock_lock).
Ltac keeps_keys_solve :=
  repeat first
    [ apply keeps_keys_refl
    | apply keeps_keys_put
    | apply keeps_keys_app; [|heap_length] ].

(** ** [configDrive] when the prompt is declined *)

Section Abort.
Context {FS : Type} `{RootFS FS}.
Variable ds : DriveStore.

Local Abbreviation state := (state FS).
Local Abbreviation run := (run ds).
Local Abbreviation wp := (wp ds).



End Abort.

(** ** [removeDrive] and [configDrive], path by path *)

Section RegistryCalls.
Context {FS : Type} `{RootFS FS}.
Variable ds : DriveStore.

Local Abbreviation state := (state FS).
Local Abbreviation run := (run ds).
Local Abbreviation wp := (wp ds).

(** X1. [removeDrive] of a url whose key has no entry, called with the lock free, returns at once: the state is what it was, the drive is not loaded, the network is not configured and nothing is written. *)
Theorem removeDrive_absent s url key :
  held "filesystem:drives" s = false ->
  fromURLToKey ds url = Some key ->
  find_key (cfgs s) (Some key) (drives s) = None ->
  exists s' c,
    run (removeDrive url) s = Finished s' c /\
    c = Return /\
    without_trace s' = without_trace s /\
    new_events s s' =
      [EvLock "filesystem:drives"; EvFromURLToKey url; EvRelease "filesystem:drives"].
Proof.
  intros Hl Hk Hf.
  apply wp_total. wp_exec.
  split; [reflexivity|]. split; [same_state | events_norm; reflexivity].
Qed.

(** X2. [removeDrive] of a registered drive that loads, called with the lock free, ends: it has taken the entry [find] gave out of [drives] and no other, touched no object, set a drive that is not writable to [{announce: false, lookup: true}], and written the document of what is left, once.  It completes when the write succeeds; when the write is rejected it throws with the entry gone from [drives] and the root drive as it was. *)
Theorem removeDrive_present s url key i c0 drive :
  held "filesystem:drives" s = false ->
  fromURLToKey ds url = Some key ->
  find_key (cfgs s) (Some key) (drives s) = Some (i, c0) ->
  getOrLoadDrive ds url = Some drive ->
  exists s' c,
    run (removeDrive url) s = Finished s' c /\
    drives s' = delete i (drives s) /\
    cfgs s' = cfgs s /\ forks s' = forks s /\ locks s' = locks s /\
    network s' =
      (if writable drive then network s
       else <[drive_key drive := unseed]> (network s)) /\
    mutations s s' = [EvWriteFile "/drives.json" (JSON_stringify s')] /\
    match fs_writeFile (rootfs s) "/drives.json" (JSON_stringify s') with
    | Some fs' => c = Normal tt /\ rootfs s' = fs'
    | None => c = Throw (Rejected "writeFile") /\ rootfs s' = rootfs s
    end.
Proof.
  intros Hl Hk Hf Hd.
  apply wp_total. wp_exec.
  all: stringify_norm; written.
  all: repeat split; try reflexivity; try (by apply unlock_lock).
  all: events_norm; reflexivity.
Qed.

(** X3. [removeDrive] called with the lock free ends, and it has thrown, with the state as it was, when the url does not resolve, and when the registered drive cannot be loaded; [drives] is then not spliced and nothing is written. *)
Theorem removeDrive_rejected s url :
  held "filesystem:drives" s = false ->
  exists s' c,
    run (removeDrive url) s = Finished s' c /\
    (fromURLToKey ds url = None ->
       c = Throw (Rejected "fromURLToKey") /\ without_trace s' = without_trace s /\
       new_events s s' =
         [EvLock "filesystem:drives"; EvFromURLToKey url; EvRelease "filesystem:drives"]) /\
    (forall key,
       fromURLToKey ds url = Some key ->
       is_Some (find_key (cfgs s) (Some key) (drives s)) ->
       getOrLoadDrive ds url = None ->
       c = Throw (Rejected "getOrLoadDrive") /\ without_trace s' = without_trace s /\
       new_events s s' =
         [EvLock "filesystem:drives"; EvFromURLToKey url; EvGetOrLoadDrive url;
          EvRelease "filesystem:drives"]).
Proof.
  intros Hl.
  apply wp_total. wp_exec.
  all: split; [intros ?|intros ? ? [? ?] ?]; simplify_eq.
  all: split; [reflexivity|]; (split; [same_state | events_norm; reflexivity]).
Qed.

Lemma removeDrive_registry s url key i c0 drive s' c :
  fromURLToKey ds url = Some key ->
  find_key (cfgs s) (Some key) (drives s) = Some (i, c0) ->
  getOrLoadDrive ds url = Some drive ->
  run (removeDrive url) s = Finished s' c ->
  drives s' = delete i (drives s) /\ cfgs s' = cfgs s /\ forks s' = forks s.
Proof.
  intros Hk Hf Hd Hrun.
  refine (wp_elim ds _ (fun c s' => _) _ _ _ _ Hrun). clear Hrun.
  wp_exec. all: done.
Qed.

(** X4. After [removeDrive], [getDriveConfig] of the key gives the next entry with that key that was behind the removed one, and none when the keys of the registry were distinct. *)
Theorem removeDrive_then_getDriveConfig s url key i c0 drive s' c :
  fromURLToKey ds url = Some key ->
  find_key (cfgs s) (Some key) (drives s) = Some (i, c0) ->
  getOrLoadDrive ds url = Some drive ->
  run (removeDrive url) s = Finished s' c ->
  run (getDriveConfig key) s' =
    Finished s' (Normal (snd <$> find_key (cfgs s) (Some key) (drop (S i) (drives s)))) /\
  (NoDup (registry_keys s) -> run (getDriveConfig key) s' = Finished s' (Normal None)).
Proof.
  intros Hk Hf Hd Hrun.
  destruct (removeDrive_registry _ _ _ _ _ _ _ _ Hk Hf Hd Hrun) as (Hdr & Hc & _).
  rewrite run_getDriveConfig, Hdr, Hc, (find_key_delete _ _ _ _ _ Hf).
  split; [done|]. intros Hnd. by rewrite (find_key_unique _ _ _ _ _ Hf Hnd).
Qed.

(** X5. Whatever path [configDrive] or [removeDrive] takes and however it ends, taking the lock is the first thing it does and releasing it the last, it does neither in between, and the locks held are afterwards the ones held before. *)
Theorem registry_calls_bracketed s url forkOf s' c :
  run (configDrive url forkOf) s = Finished s' c \/ run (removeDrive url) s = Finished s' c ->
  head (new_events s s') = Some (EvLock "filesystem:drives") /\
  last (new_events s s') = Some (EvRelease "filesystem:drives") /\
  lock_events s s' = [EvLock "filesystem:drives"; EvRelease "filesystem:drives"] /\
  locks s' = locks s.
Proof.
  intros [Hrun|Hrun].
  - refine (wp_elim ds _ (fun c s' => _) _ _ _ _ Hrun). clear Hrun.
    wp_exec.
    all: unfold lock_events; events_norm.
    all: repeat split; try reflexivity; by apply unlock_lock.
  - refine (wp_elim ds _ (fun c s' => _) _ _ _ _ Hrun). clear Hrun.
    wp_exec.
    all: unfold lock_events; events_norm.
    all: repeat split; try reflexivity; by apply unlock_lock.
Qed.

(** X6. [configDrive] of a registered drive, called with the lock free, ends; it loads no drive, asks nothing and leaves the network alone.  Without a [forkOf] option no object changes; with an object the entry refers to that very object; with any other value the entry loses its [forkOf].  The document is written in each case, and the call completes or throws as the write does. *)
Theorem configDrive_existing s url forkOf key i c0 :
  held "filesystem:drives" s = false ->
  fromURLToKey ds url = Some key ->
  find_key (cfgs s) (Some key) (drives s) = Some (i, c0) ->
  exists s' c,
    run (configDrive url forkOf) s = Finished s' c /\
    drives s' = drives s /\ forks s' = forks s /\ network s' = network s /\
    locks s' = locks s /\
    cfgs s' =
      match forkOf with
      | ArgUndefined => cfgs s
      | ArgObject f => alter (put_forkOf (Some f)) c0 (cfgs s)
      | ArgOther => alter (put_forkOf None) c0 (cfgs s)
      end /\
    new_events s s' =
      [EvLock "filesystem:drives"; EvFromURLToKey url;
       EvWriteFile "/drives.json" (JSON_stringify s'); EvRelease "filesystem:drives"] /\
    match fs_writeFile (rootfs s) "/drives.json" (JSON_stringify s') with
    | Some fs' => c = Normal tt /\ rootfs s' = fs'
    | None => c = Throw (Rejected "writeFile") /\ rootfs s' = rootfs s
    end.
Proof.
  intros Hl Hk Hf.
  apply wp_total. wp_exec.
  all: stringify_norm; written.
  all: repeat split; try reflexivity; try (by apply unlock_lock).
  all: events_norm; reflexivity.
Qed.

(** X7. [configDrive] of a drive that is not registered and whose manifest names no fork parent (no [forkOf], or an empty one), called with the lock free, ends: it has appended one entry, with the key and the [forkOf] object of the caller if there is one, seeded the drive when it is not writable, asked nothing and written the document; it completes or throws as the write does. *)
Theorem configDrive_new_entry s url forkOf key drive m :
  held "filesystem:drives" s = false ->
  fromURLToKey ds url = Some key ->
  find_key (cfgs s) (Some key) (drives s) = None ->
  getOrLoadDrive ds url = Some drive ->
  drive_manifest drive = Some m ->
  truthy (mf_forkOf m) = false ->
  exists s' c,
    run (configDrive url forkOf) s = Finished s' c /\
    drives s' = drives s ++ [length (cfgs s)] /\
    cfgs s' = cfgs s ++ [ {| cfg_key := Some key;
                             cfg_forkOf := match forkOf with
                                           | ArgObject f => Some f
                                           | _ => None
                                           end |} ] /\
    forks s' = forks s /\ locks s' = locks s /\
    network s' =
      (if writable drive then network s else <[drive_key drive := seed]> (network s)) /\
    new_events s s' =
      [EvLock "filesystem:drives"; EvFromURLToKey url; EvGetOrLoadDrive url;
       EvReadManifest (drive_key drive)] ++
      (if writable drive then [] else [EvConfigureNetwork (drive_key drive) seed]) ++
      [EvWriteFile "/drives.json" (JSON_stringify s'); EvRelease "filesystem:drives"] /\
    match fs_writeFile (rootfs s) "/drives.json" (JSON_stringify s') with
    | Some fs' => c = Normal tt /\ rootfs s' = fs'
    | None => c = Throw (Rejected "writeFile") /\ rootfs s' = rootfs s
    end.
Proof.
  intros Hl Hk Hf Hd Hm Ht.
  apply wp_total. wp_exec.
  all: try discriminate Ht.
  all: stringify_norm; written.
  all: rewrite ?alter_alloc; cbn [put_forkOf cfg_key].
  all: repeat split; try reflexivity; try (by apply unlock_lock).
  all: events_norm; try reflexivity.
Qed.

(** X8. When the manifest names a fork parent and the caller gave a [forkOf] object with a label, a call made with the lock free ends with the new entry last in [drives] and referring to the object of the caller, whose [key] is overwritten in place with the key of the parent; the label stays and the user is not asked. *)
Theorem configDrive_manifest_overrides_key s url f key drive m parentUrl parentKey label :
  held "filesystem:drives" s = false ->
  fromURLToKey ds url = Some key ->
  find_key (cfgs s) (Some key) (drives s) = None ->
  getOrLoadDrive ds url = Some drive ->
  drive_manifest drive = Some m ->
  mf_forkOf m = Some parentUrl ->
  truthy (Some parentUrl) = true ->
  fromURLToKey ds parentUrl = Some parentKey ->
  fork_label_of (forks s) f = Some label ->
  truthy (Some label) = true ->
  exists s' c,
    run (configDrive url (ArgObject f)) s = Finished s' c /\
    forks s' = alter (put_key (Some parentKey)) f (forks s) /\
    fork_key_of (forks s') f = Some parentKey /\
    fork_label_of (forks s') f = Some label /\
    forkOf_of (cfgs s') (length (cfgs s)) = Some f /\
    last (drives s') = Some (length (cfgs s)) /\
    (forall message answer, EvPrompt message answer ∉ new_events s s').
Proof.
  intros Hl Hk Hf Hd Hm Hmf Hp Hpk Hlab Hlt.
  assert (Hfk : fork_key_of (alter (put_key (Some parentKey)) f (forks s)) f = Some parentKey).
  { apply fork_key_of_put_eq. unfold fork_label_of in Hlab.
    destruct (forks s !! f) eqn:Hlk; [|done]. by eapply lookup_lt_Some. }
  assert (Hlt' : truthy (fork_label_of (forks s) f) = true) by (by rewrite Hlab).
  apply wp_total. wp_exec.
  all: (split; [reflexivity|]); (split; [exact Hfk|]).
  all: (split; [by rewrite fork_label_of_put_key|]).
  all: (split; [rewrite ?forkOf_of_app_lt by heap_length; apply forkOf_of_alter_alloc|]).
  all: (split; [by rewrite last_snoc|]).
  all: intros ? ? Hin; events_norm_in Hin; elem_cases Hin.
Qed.

(** X9. When the manifest names a fork parent, the caller gave no [forkOf] object and an answer with a value is pending, a call made with the lock free ends: the user was asked after the drive was loaded, read and seeded; the value answered is the label of a new [forkOf] object whose key is the key of the parent, the new entry is last in [drives], and the call completes or throws as the write does. *)
Theorem configDrive_prompt_sets_label s url forkOf key drive m parentUrl parentKey v rest :
  held "filesystem:drives" s = false ->
  fromURLToKey ds url = Some key ->
  find_key (cfgs s) (Some key) (drives s) = None ->
  getOrLoadDrive ds url = Some drive ->
  drive_manifest drive = Some m ->
  mf_forkOf m = Some parentUrl ->
  truthy (Some parentUrl) = true ->
  fromURLToKey ds parentUrl = Some parentKey ->
  (forall f, forkOf ≠ ArgObject f) ->
  focusedWindow s = true ->
  answers s = Some (PromptObject (Some v)) :: rest ->
  truthy (Some v) = true ->
  exists s' c,
    run (configDrive url forkOf) s = Finished s' c /\
    forks s' = forks s ++ [ {| fork_key := Some parentKey; fork_label := Some v |} ] /\
    forkOf_of (cfgs s') (length (cfgs s)) = Some (length (forks s)) /\
    key_of (cfgs s') (length (cfgs s)) = Some key /\
    last (drives s') = Some (length (cfgs s)) /\
    answers s' = rest /\
    filter (fun e => is_store_event e = true) (new_events s s') =
      [EvGetOrLoadDrive url; EvReadManifest (drive_key drive)] ++
      (if writable drive then [] else [EvConfigureNetwork (drive_key drive) seed]) ++
      [EvPrompt prompt_message (Some (PromptObject (Some v)))] /\
    match fs_writeFile (rootfs s) "/drives.json" (JSON_stringify s') with
    | Some fs' => c = Normal tt /\ rootfs s' = fs'
    | None => c = Throw (Rejected "writeFile") /\ rootfs s' = rootfs s
    end.
Proof.
  intros Hl Hk Hf Hd Hm Hmf Hp Hpk Hno Hfw Ha Hv.
  apply wp_total. wp_exec.
  all: try (by destruct (Hno _ eq_refl)).
  all: stringify_norm; written.
  all: (split; [by rewrite !alter_alloc|]).
  all: (split; [rewrite ?forkOf_of_app_lt by heap_length; apply forkOf_of_alter_alloc|]).
  all: (split; [rewrite ?key_of_app_lt by heap_length;
                by rewrite key_of_put_forkOf, key_of_alloc|]).
  all: (split; [by rewrite last_snoc|]).
  all: (split; [reflexivity|]).
  all: (split; [events_norm; reflexivity|]).
  all: split; reflexivity.
Qed.


(** X11. When a label must be asked for and no window has the focus, [configDrive] called with the lock free throws a [TypeError]: the user is not asked, nothing is appended or written and the lock is released, but a drive that is not writable has been seeded. *)
Theorem configDrive_no_window s url forkOf key drive m parentUrl parentKey :
  held "filesystem:drives" s = false ->
  fromURLToKey ds url = Some key ->
  find_key (cfgs s) (Some key) (drives s) = None ->
  getOrLoadDrive ds url = Some drive ->
  drive_manifest drive = Some m ->
  mf_forkOf m = Some parentUrl ->
  truthy (Some parentUrl) = true ->
  fromURLToKey ds parentUrl = Some parentKey ->
  (forall f, forkOf = ArgObject f -> truthy (fork_label_of (forks s) f) = false) ->
  focusedWindow s = false ->
  exists s' c,
    run (configDrive url forkOf) s = Finished s' c /\
    c = Throw (TypeError "Cannot read property 'webContents' of null") /\
    drives s' = drives s /\ rootfs s' = rootfs s /\ locks s' = locks s /\
    network s' =
      (if writable drive then network s else <[drive_key drive := seed]> (network s)) /\
    mutations s s' = [] /\
    (forall message answer, EvPrompt message answer ∉ new_events s s').
Proof.
  intros Hl Hk Hf Hd Hm Hmf Hp Hpk Hlabel Hfw.
  destruct forkOf as [|f|]; [|specialize (Hlabel f eq_refl)|].
  all: apply wp_total; wp_exec.
  all: repeat split; try reflexivity; try (by apply unlock_lock).
  all: try (events_norm; reflexivity).
  all: intros ? ? Hin; events_norm_in Hin; elem_cases Hin.
Qed.


Lemma configDrive_normal s url forkOf s' :
  run (configDrive url forkOf) s = Finished s' (Normal tt) ->
  (exists key,
     fromURLToKey ds url = Some key /\
     is_Some (find_key (cfgs s') (Some key) (drives s'))) /\
  (exists fs0, fs_writeFile fs0 "/drives.json" (JSON_stringify s') = Some (rootfs s')) /\
  mutations s s' = [EvWriteFile "/drives.json" (JSON_stringify s')].
Proof.
  intros Hrun.
  refine (wp_elim ds _ (fun c s' => c = Normal tt -> _) _ _ _ _ Hrun eq_refl). clear Hrun.
  wp_exec.
  all: intros Hc; try discriminate Hc; clear Hc.
  all: stringify_norm.
  all: (split; [eexists; (split; [reflexivity|])|split]).
  all: try (eexists; eassumption).
  all: try (events_norm; reflexivity).
  all: first
    [ match goal with
      | Hfind : find_key _ _ _ = Some _ |- _ =>
          eapply find_key_mono; [| |rewrite Hfind; eauto]; [keeps_keys_solve | reflexivity]
      end
    | eapply (find_key_is_Some _ _ _ (length (cfgs s)));
      [ rewrite !elem_of_app, !list_elem_of_singleton; eauto
      | repeat first [rewrite key_of_app_lt by heap_length | rewrite key_of_put_forkOf];
        rewrite key_of_alloc; reflexivity ] ].
Qed.

Lemma removeDrive_normal s url s' :
  run (removeDrive url) s = Finished s' (Normal tt) ->
  (exists fs0, fs_writeFile fs0 "/drives.json" (JSON_stringify s') = Some (rootfs s')) /\
  mutations s s' = [EvWriteFile "/drives.json" (JSON_stringify s')].
Proof.
  intros Hrun.
  refine (wp_elim ds _ (fun c s' => c = Normal tt -> _) _ _ _ _ Hrun eq_refl). clear Hrun.
  wp_exec.
  all: intros Hc; try discriminate Hc; clear Hc.
  all: stringify_norm.
  all: (split; [eexists; eassumption|events_norm; reflexivity]).
Qed.


(** X13. After a [configDrive] that completes, [getDriveConfig] of the key of the url finds an entry of [drives] with that key. *)
Theorem configDrive_registers s url forkOf s' :
  run (configDrive url forkOf) s = Finished s' (Normal tt) ->
  exists key c0,
    fromURLToKey ds url = Some key /\
    run (getDriveConfig key) s' = Finished s' (Normal (Some c0)) /\
    c0 ∈ drives s' /\ key_of (cfgs s') c0 = Some key.
Proof.
  intros ((key & Hk & [[i c0] Hfind]) & _)%configDrive_normal.
  exists key, c0. rewrite run_getDriveConfig, Hfind.
  apply find_key_Some in Hfind as (Hi & Hc & _).
  repeat split; try done. by eapply list_elem_of_lookup_2.
Qed.

(** X14. A [configDrive] or [removeDrive] that completes has written once, and what [/drives.json] then holds is the document of [drives] as the call left it. *)
Theorem registry_document_in_sync `{!RootFSLaws FS} s url forkOf s' :
  run (configDrive url forkOf) s = Finished s' (Normal tt) \/
  run (removeDrive url) s = Finished s' (Normal tt) ->
  persisted s' = Some (JSON_stringify s') /\
  mutations s s' = [EvWriteFile "/drives.json" (JSON_stringify s')].
Proof.
  intros [(_ & (fs0 & Hw) & Hmut)%configDrive_normal|((fs0 & Hw) & Hmut)%removeDrive_normal].
  all: split; [|done]; unfold persisted; by eapply read_write.
Qed.


(** X16. A second [configDrive] of the same url without options changes nothing: no entry, object or network setting; it loads no drive, asks nothing, and writes the document that was there. *)
Theorem configDrive_again s url forkOf s1 s2 c :
  run (configDrive url forkOf) s = Finished s1 (Normal tt) ->
  run (configDrive url ArgUndefined) s1 = Finished s2 c ->
  drives s2 = drives s1 /\ cfgs s2 = cfgs s1 /\ forks s2 = forks s1 /\
  network s2 = network s1 /\
  JSON_stringify s2 = JSON_stringify s1 /\
  filter (fun e => is_store_event e = true) (new_events s1 s2) = [] /\
  mutations s1 s2 = [EvWriteFile "/drives.json" (JSON_stringify s1)].
Proof.
  intros ((key & Hk & [[i c0] Hfind]) & _)%configDrive_normal Hrun.
  refine (wp_elim ds _ (fun c s' => _) _ _ _ _ Hrun). clear Hrun.
  wp_exec.
  all: stringify_norm.
  all: repeat split; try reflexivity.
  all: try (apply JSON_stringify_eq; reflexivity).
  all: events_norm; reflexivity.
Qed.

(** X17. [configDrive] of a new drive without fork parent, called with the lock free, followed by [removeDrive] of it: both calls end, whether the write of the first succeeds or not, and the registry is given back: [drives] and its document are as before the two calls and the removal writes that document; a drive that is not writable is left configured not to announce. *)
Theorem configDrive_then_removeDrive s url forkOf key drive m :
  held "filesystem:drives" s = false ->
  fromURLToKey ds url = Some key ->
  find_key (cfgs s) (Some key) (drives s) = None ->
  getOrLoadDrive ds url = Some drive ->
  drive_manifest drive = Some m ->
  truthy (mf_forkOf m) = false ->
  well_formed s ->
  exists s1 c1,
    run (configDrive url forkOf) s = Finished s1 c1 /\
    exists s2 c2,
      run (removeDrive url) s1 = Finished s2 c2 /\
      drives s1 = drives s ++ [length (cfgs s)] /\
      drives s2 = drives s /\
      JSON_stringify s2 = JSON_stringify s /\
      network s2 =
        (if writable drive then network s else <[drive_key drive := unseed]> (network s)) /\
      mutations s1 s2 = [EvWriteFile "/drives.json" (JSON_stringify s)] /\
      match fs_writeFile (rootfs s1) "/drives.json" (JSON_stringify s) with
      | Some fs' => c2 = Normal tt /\ rootfs s2 = fs'
      | None => c2 = Throw (Rejected "writeFile") /\ rootfs s2 = rootfs s1
      end.
Proof.
  intros Hl Hk Hf Hd Hm Ht Hwf.
  apply wp_total. wp_exec.
  all: try discriminate Ht.
  all: apply wp_total; wp_exec.
  all: try match goal with
       | Hh : held _ _ = true |- False => rewrite held_unlock in Hh; discriminate Hh
       end.
  all: match goal with
       | Hfind : find_key ?C _ (_ ++ [_]) = _ |- _ =>
           rewrite (find_key_snoc C) in Hfind;
           [ | rewrite find_key_well_formed by (done || keeps_keys_solve); exact Hf
             | rewrite ?key_of_put_forkOf; apply key_of_alloc ]
       end.
  all: simplify_eq; cbn [fst snd].
  all: (split; [reflexivity|]).
  all: (split; [apply delete_snoc|]).
  all: assert (forall X : state,
         drives X = delete (length (drives s)) (drives s ++ [length (cfgs s)]) ->
         forks X = forks s ->
         (forall c0, c0 < length (cfgs s) -> cfgs X !! c0 = cfgs s !! c0) ->
         JSON_stringify X = JSON_stringify s) as Hdoc
       by (intros X HX ? ?; apply JSON_stringify_frame; try done;
           by rewrite HX, delete_snoc).
  all: (split; [apply Hdoc; state_red; try reflexivity; intros c0 Hc0;
                repeat first [ rewrite list_lookup_alter_ne by lia
                             | rewrite lookup_app_l by heap_length ]; reflexivity|]).
  all: (split; [by rewrite ?insert_insert_eq|]).
  all: repeat match goal with
       | Hw : fs_writeFile _ _ (JSON_stringify ?X) = _ |- _ =>
           assert_fails (is_var X);
           rewrite (Hdoc X) in Hw
             by (state_red; try reflexivity; intros c0 Hc0;
                 repeat first [ rewrite list_lookup_alter_ne by lia
                              | rewrite lookup_app_l by heap_length ]; reflexivity)
       end.
  all: (split; [events_rel|]).
  all: try match goal with
       | |- context [EvWriteFile _ (JSON_stringify ?X)] =>
           rewrite (Hdoc X)
             by (state_red; try reflexivity; intros c0 Hc0;
                 repeat first [ rewrite list_lookup_alter_ne by lia
                              | rewrite lookup_app_l by heap_length ]; reflexivity)
       end.
  all: try reflexivity.
  all: state_red.
  all: match goal with
       | Hw : fs_writeFile _ _ (JSON_stringify ?X) = _ |- _ => is_var X; rewrite Hw
       end.
  all: split; reflexivity.
Qed.

End RegistryCalls.

(** ** [listDrives] *)

Section Listing.
Context {FS : Type} `{RootFS FS}.
Variable ds : DriveStore.

Local Abbreviation state := (state FS).
Local Abbreviation run := (run ds).

(** X18. [listDrives()] gives the entries of [drives].  With [includeSystem] a new object comes first, whose key is the url of the root drive without its first eight characters, [hyper://] for a hyper url; that object is not in [drives], so the document does not show it and [getDriveConfig] does not find it. *)
Theorem listDrives_system_entry (s : state) :
  run (listDrives false) s = Finished s (Normal (drives s)) /\
  exists s',
    let sys := length (cfgs s) in
    run (listDrives true) s = Finished s' (Normal (sys :: drives s)) /\
    cfgs s' = cfgs s ++ [ {| cfg_key := Some (slice (String.length "hyper://") (rootUrl s)); cfg_forkOf := None |} ] /\
    (forall k, rootUrl s = "hyper://" +:+ k -> key_of (cfgs s') sys = Some k) /\
    drives s' = drives s /\ forks s' = forks s /\ rootfs s' = rootfs s /\
    new_events s s' = [] /\
    (well_formed s ->
     JSON_stringify s' = JSON_stringify s /\
     forall key, run (getDriveConfig key) s' =
                 Finished s' (Normal (snd <$> find_key (cfgs s) (Some key) (drives s)))).
Proof.
  split; [reflexivity|].
  eexists. cbn zeta. split; [reflexivity|]. cbn [cfgs set_cfgs].
  split; [reflexivity|]. split; [|do 3 (split; [reflexivity|]); split; [apply drop_all|]].
  - intros k Hk. rewrite key_of_alloc. cbn [cfg_key]. rewrite Hk.
    by rewrite (slice_prefix "hyper://" k).
  - intros Hwf.
    assert (Hkeys : forall c, c ∈ drives s ->
              key_of (cfgs s ++ [ {| cfg_key := Some (slice (String.length "hyper://") (rootUrl s));
                                     cfg_forkOf := None |} ]) c = key_of (cfgs s) c).
    { intros c Hc. apply key_of_app_lt. unfold well_formed in Hwf.
      rewrite Forall_forall in Hwf. by apply Hwf. }
    split.
    + unfold JSON_stringify. cbn [drives cfgs forks set_cfgs]. f_equal.
      apply list_fmap_ext. intros _ c Hc%list_elem_of_lookup_2.
      unfold stringify_entry. rewrite (Hkeys c Hc). f_equal.
      unfold forkOf_of. rewrite lookup_app_l; [done|].
      unfold well_formed in Hwf. rewrite Forall_forall in Hwf. by apply Hwf.
    + intros key. rewrite run_getDriveConfig. cbn [drives cfgs set_cfgs].
      by rewrite (find_key_ext (cfgs s)).
Qed.

End Listing.

(** ** [getAvailableName] *)

Section Names.
Context {FS : Type} `{RootFS FS}.
Variable ds : DriveStore.
Variable joinPath : string -> string -> string.

Local Abbreviation state := (state FS).
Local Abbreviation run := (run ds).

(** [stat] does not throw: a rejected [pda.stat] gives [null]. *)
Lemma run_stat path (s : state) :
  run (stat path) s = Finished (emit (EvStat path) s) (Normal (fs_stat (rootfs s) path)).
Proof.
  unfold stat. rewrite run_try_catch, run_bind, run_awaitT. cbn [handle].
  cbn [rootfs emit]. by destruct (fs_stat (rootfs s) path).
Qed.

Lemma run_getAvailableName_from_S n i containingPath basename ext joiningChar (s : state) :
  run (getAvailableName_from joinPath (S n) i containingPath basename ext joiningChar) s =
  let path := joinPath containingPath (candidate basename ext joiningChar i) in
  match fs_stat (rootfs s) path with
  | None => Finished (emit (EvStat path) s) (Normal (candidate basename ext joiningChar i))
  | Some _ =>
      run (getAvailableName_from joinPath n (i + 1) containingPath basename ext joiningChar)
        (emit (EvStat path) s)
  end.
Proof.
  cbn [getAvailableName_from]. rewrite run_bind, run_stat. cbn [and_then].
  by destruct (fs_stat _ _).
Qed.

Lemma probes_S containingPath basename ext joiningChar i m :
  probes joinPath containingPath basename ext joiningChar i (S m) =
  joinPath containingPath (candidate basename ext joiningChar i) ::
  probes joinPath containingPath basename ext joiningChar (i + 1) m.
Proof.
  unfold probes. cbn [seq fmap list_fmap]. rewrite N.add_0_r. f_equal.
  rewrite <- seq_shift, <- list_fmap_compose. apply list_fmap_ext.
  intros _ k _. cbn. do 2 f_equal. lia.
Qed.

Lemma getAvailableName_from_found d :
  forall n i containingPath basename ext joiningChar (s : state),
  d < n ->
  (forall k, k < d ->
     fs_stat (rootfs s)
       (joinPath containingPath (candidate basename ext joiningChar (i + N.of_nat k))) ≠ None) ->
  fs_stat (rootfs s)
    (joinPath containingPath (candidate basename ext joiningChar (i + N.of_nat d))) = None ->
  exists s',
    run (getAvailableName_from joinPath n i containingPath basename ext joiningChar) s =
      Finished s' (Normal (candidate basename ext joiningChar (i + N.of_nat d))) /\
    rootfs s' = rootfs s /\
    trace s' = trace s ++ (EvStat <$> probes joinPath containingPath basename ext joiningChar i (S d)).
Proof.
  induction d as [|d IH]; intros n i containingPath basename ext joiningChar s Hn Hbusy Hfree.
  - destruct n as [|n]; [lia|]. rewrite run_getAvailableName_from_S. cbn zeta.
    rewrite N.add_0_r in Hfree. rewrite Hfree. eexists. split; [by rewrite N.add_0_r|].
    split; [done|]. rewrite probes_S. done.
  - destruct n as [|n]; [lia|]. rewrite run_getAvailableName_from_S. cbn zeta.
    pose proof (Hbusy 0 ltac:(lia)) as H0. rewrite N.add_0_r in H0.
    destruct (fs_stat (rootfs s) (joinPath containingPath (candidate basename ext joiningChar i)))
      eqn:Hst; [|congruence].
    destruct (IH n (i + 1)%N containingPath basename ext joiningChar
                (emit (EvStat (joinPath containingPath (candidate basename ext joiningChar i))) s))
      as (s' & Hrun & Hfs & Htr).
    + lia.
    + intros k Hk. cbn [rootfs emit]. replace (i + 1 + N.of_nat k)%N with (i + N.of_nat (S k))%N by lia.
      apply Hbusy. lia.
    + cbn [rootfs emit]. replace (i + 1 + N.of_nat d)%N with (i + N.of_nat (S d))%N by lia. done.
    + exists s'. replace (i + N.of_nat (S d))%N with (i + 1 + N.of_nat d)%N by lia.
      split; [done|]. split; [done|]. rewrite Htr. cbn [trace emit].
      rewrite (probes_S _ _ _ _ i (S d)). rewrite <- app_assoc. done.
Qed.

Lemma getAvailableName_from_exhausted n :
  forall i containingPath basename ext joiningChar (s : state),
  (forall k, k < n ->
     fs_stat (rootfs s)
       (joinPath containingPath (candidate basename ext joiningChar (i + N.of_nat k))) ≠ None) ->
  exists s',
    run (getAvailableName_from joinPath n i containingPath basename ext joiningChar) s =
      Finished s' (Throw (Error ("Unable to find an available name for " +:+ basename))) /\
    rootfs s' = rootfs s /\
    trace s' = trace s ++ (EvStat <$> probes joinPath containingPath basename ext joiningChar i n).
Proof.
  induction n as [|n IH]; intros i containingPath basename ext joiningChar s Hbusy.
  - exists s. split; [done|]. split; [done|]. unfold probes. cbn. by rewrite app_nil_r.
  - rewrite run_getAvailableName_from_S. cbn zeta.
    pose proof (Hbusy 0 ltac:(lia)) as H0. rewrite N.add_0_r in H0.
    destruct (fs_stat (rootfs s) (joinPath containingPath (candidate basename ext joiningChar i)))
      eqn:Hst; [|congruence].
    destruct (IH (i + 1)%N containingPath basename ext joiningChar
                (emit (EvStat (joinPath containingPath (candidate basename ext joiningChar i))) s))
      as (s' & Hrun & Hfs & Htr).
    + intros k Hk. cbn [rootfs emit]. replace (i + 1 + N.of_nat k)%N with (i + N.of_nat (S k))%N by lia.
      apply Hbusy. lia.
    + exists s'. split; [done|]. split; [done|]. rewrite Htr. cbn [trace emit].
      rewrite (probes_S _ _ _ _ i n). rewrite <- app_assoc. done.
Qed.

(** X19. [getAvailableName] tries [basename], then [basename] with the joining character and 2, 3, ... (never 1), each with the extension if one is given, and returns the first name that [stat] does not find, having probed the names before it in that order and no other; the root drive is not changed.  When every name below the bound exists it throws. *)
Theorem getAvailableName_first_free containingPath basename ext joiningChar (s : state) :
  let name := candidate basename ext joiningChar in
  let path i := joinPath containingPath (name i) in
  let extension := if truthy ext then "." +:+ default "" ext else "" in
  (name 1%N = basename +:+ extension /\
   forall i, i ≠ 1%N ->
     name i = (basename +:+ default "-" joiningChar +:+ pretty i) +:+ extension) /\
  (forall j : N,
     (1 <= j < bound)%N ->
     (forall i, (1 <= i < j)%N -> fs_stat (rootfs s) (path i) ≠ None) ->
     fs_stat (rootfs s) (path j) = None ->
     exists s',
       run (getAvailableName joinPath containingPath basename ext joiningChar) s =
         Finished s' (Normal (name j)) /\
       rootfs s' = rootfs s /\
       new_events s s' =
         EvStat <$> probes joinPath containingPath basename ext joiningChar 1 (N.to_nat j)) /\
  ((forall i, (1 <= i < bound)%N -> fs_stat (rootfs s) (path i) ≠ None) ->
   exists s',
     run (getAvailableName joinPath containingPath basename ext joiningChar) s =
       Finished s' (Throw (Error ("Unable to find an available name for " +:+ basename))) /\
     rootfs s' = rootfs s).
Proof.
  intros name path extension. split; [|split].
  - unfold name, candidate, extension. split.
    + by rewrite bool_decide_eq_true_2.
    + intros i Hi. by rewrite bool_decide_eq_false_2.
  - intros j Hj Hbusy Hfree. unfold getAvailableName.
    destruct (getAvailableName_from_found (N.to_nat (j - 1)) (N.to_nat (bound - 1)) 1%N
                containingPath basename ext joiningChar s) as (s' & Hrun & Hfs & Htr).
    + unfold bound in *. lia.
    + intros k Hk. apply Hbusy. lia.
    + replace (1 + N.of_nat (N.to_nat (j - 1)))%N with j by lia. exact Hfree.
    + exists s'. replace (1 + N.of_nat (N.to_nat (j - 1)))%N with j in Hrun by lia.
      split; [exact Hrun|]. split; [exact Hfs|].
      unfold new_events. rewrite Htr, drop_app_length.
      replace (S (N.to_nat (j - 1))) with (N.to_nat j) by lia. done.
  - intros Hbusy. unfold getAvailableName.
    destruct (getAvailableName_from_exhausted (N.to_nat (bound - 1)) 1%N
                containingPath basename ext joiningChar s) as (s' & Hrun & Hfs & _).
    + intros k Hk. apply Hbusy. unfold bound in *. lia.
    + exists s'. done.
Qed.

End Names.

(** ** The reconcilers *)

Section Reconcilers.
Context {FS : Type} `{RootFS FS}.
Variable ds : DriveStore.

Local Abbreviation state := (state FS).
Local Abbreviation run := (run ds).
Local Abbreviation wp := (wp ds).

(** X20. [ensureDir]: where nothing is, it logs and makes the directory, and logs the failure when [mkdir] is rejected; where a directory is, it does nothing; where something else is, it logs a warning and does nothing.  It completes in every case. *)
Theorem ensureDir_cases (s : state) path s' c :
  run (ensureDir path) s = Finished s' c ->
  c = Normal tt /\
  (fs_stat (rootfs s) path = None ->
     match fs_mkdir (rootfs s) path with
     | Some fs' =>
         rootfs s' = fs' /\
         new_events s s' =
           [EvStat path; EvLogInfo ("Creating directory " +:+ path); EvMkdir path]
     | None =>
         rootfs s' = rootfs s /\
         new_events s s' =
           [EvStat path; EvLogInfo ("Creating directory " +:+ path); EvMkdir path;
            EvLogError "Filesystem failed to make directory"]
     end) /\
  (forall st,
     fs_stat (rootfs s) path = Some st ->
     rootfs s' = rootfs s /\
     new_events s s' =
       EvStat path ::
       (if isDirectory st then []
        else [EvLogError "Warning! Filesystem expects a folder but an unexpected file exists at this location."])).
Proof.
  intros Hrun.
  refine (wp_elim ds _ (fun c s' => _) _ _ _ _ Hrun). clear Hrun.
  wp_exec.
  all: (split; [reflexivity|]).
  all: split; intros; simplify_eq.
  all: repeat match goal with Hb : isDirectory _ = _ |- _ => rewrite Hb end.
  all: repeat split; try reflexivity; events_norm; reflexivity.
Qed.

(** X21. [ensureMount] for a url that resolves completes: where nothing is, one [mount] of the key; where another key is mounted, one [unmount] and, when that succeeded, one [mount] of the key, but when the [unmount] is rejected no [mount] follows, the failure is logged and the root drive is as it was; where the key is mounted, nothing; where something that is no mount is, a warning and nothing else. *)
Theorem ensureMount_cases (s : state) path url key :
  fromURLToKey ds url = Some key ->
  exists s' c,
    run (ensureMount path url) s = Finished s' c /\
    c = Normal tt /\
    (fs_stat (rootfs s) path = None ->
       mutations s s' = [EvMount path key] /\
       forall fs', fs_mount (rootfs s) path key = Some fs' -> rootfs s' = fs') /\
    (forall st oldKey,
       fs_stat (rootfs s) path = Some st -> mount st = Some oldKey -> oldKey ≠ key ->
       match fs_unmount (rootfs s) path with
       | Some fs1 =>
           mutations s s' = [EvUnmount path; EvMount path key] /\
           forall fs2, fs_mount fs1 path key = Some fs2 -> rootfs s' = fs2
       | None =>
           mutations s s' = [EvUnmount path] /\ rootfs s' = rootfs s /\
           last (new_events s s') = Some (EvLogError "Filesystem failed to mount drive")
       end) /\
    (forall st,
       fs_stat (rootfs s) path = Some st -> mount st = Some key ->
       mutations s s' = [] /\ rootfs s' = rootfs s) /\
    (forall st,
       fs_stat (rootfs s) path = Some st -> mount st = None ->
       mutations s s' = [] /\ rootfs s' = rootfs s /\
       new_events s s' =
         [EvStat path; EvFromURLToKey url;
          EvLogError "Warning! Filesystem expects a mount but an unexpected file exists at this location."]).
Proof.
  intros Hk.
  apply wp_total. wp_exec.
  all: try apply bool_decide_eq_true in Heqb; try apply bool_decide_eq_false in Heqb.
  all: (split; [reflexivity|]).
  all: repeat split; intros; simplify_eq; try contradiction.
  all: try (events_norm; reflexivity); try reflexivity.
  all: match goal with
       | Hu : fs_unmount _ _ = _ |- _ => rewrite Hu
       end.
  all: repeat split; intros; simplify_eq; try (events_norm; reflexivity); try reflexivity.
Qed.

(** X22. [ensureMount] looks at the path before it resolves the url; when the url does not resolve it logs the failure and changes nothing.  When the old mount was removed and the new [mount] is rejected, the call still completes, with the failure logged and the path left without a mount. *)
Theorem ensureMount_failures (s : state) path url s' c :
  run (ensureMount path url) s = Finished s' c ->
  (fromURLToKey ds url = None ->
     c = Normal tt /\ rootfs s' = rootfs s /\
     new_events s s' =
       [EvStat path; EvFromURLToKey url; EvLogError "Filesystem failed to mount drive"]) /\
  (forall key st oldKey fs1,
     fromURLToKey ds url = Some key ->
     fs_stat (rootfs s) path = Some st -> mount st = Some oldKey -> oldKey ≠ key ->
     fs_unmount (rootfs s) path = Some fs1 ->
     fs_mount fs1 path key = None ->
     c = Normal tt /\ rootfs s' = fs1 /\
     mutations s s' = [EvUnmount path; EvMount path key] /\
     last (new_events s s') = Some (EvLogError "Filesystem failed to mount drive")).
Proof.
  intros Hrun.
  refine (wp_elim ds _ (fun c s' => _) _ _ _ _ Hrun). clear Hrun.
  wp_exec.
  all: try apply bool_decide_eq_true in Heqb; try apply bool_decide_eq_false in Heqb.
  all: split; intros; simplify_eq; try contradiction.
  all: repeat split; try reflexivity; events_norm; reflexivity.
Qed.

(** X23. [ensureUnmount]: where a mount is, it logs and unmounts once, and logs the failure when [unmount] is rejected; where nothing or something else is, it does nothing and logs nothing. *)
Theorem ensureUnmount_cases (s : state) path s' c :
  run (ensureUnmount path) s = Finished s' c ->
  c = Normal tt /\
  (forall st key,
     fs_stat (rootfs s) path = Some st -> mount st = Some key ->
     match fs_unmount (rootfs s) path with
     | Some fs' =>
         rootfs s' = fs' /\
         new_events s s' = [EvStat path; EvLogInfo "Removing mount"; EvUnmount path]
     | None =>
         rootfs s' = rootfs s /\
         new_events s s' =
           [EvStat path; EvLogInfo "Removing mount"; EvUnmount path;
            EvLogError "Filesystem failed to unmount drive"]
     end) /\
  (fs_stat (rootfs s) path = None \/
   (exists st, fs_stat (rootfs s) path = Some st /\ mount st = None) ->
   rootfs s' = rootfs s /\ new_events s s' = [EvStat path]).
Proof.
  intros Hrun.
  refine (wp_elim ds _ (fun c s' => _) _ _ _ _ Hrun). clear Hrun.
  wp_exec.
  all: (split; [reflexivity|]).
  all: split; [intros ? ? ? ?|intros [?|(? & ? & ?)]]; simplify_eq; simpl in *; simplify_eq.
  all: repeat split; try reflexivity; events_norm; reflexivity.
Qed.

Lemma completes_aside_intro (p : prog FS unit) (s : state) :
  wp False p (fun c s' =>
    c = Normal tt /\ drives s' = drives s /\ cfgs s' = cfgs s /\ forks s' = forks s /\
    locks s' = locks s /\ network s' = network s /\ lock_events s s' = []) s ->
  completes_aside ds p s.
Proof. intros (s' & c & Hrun & -> & Hrest)%wp_total. exists s'. eauto. Qed.

(** X24. The three reconcilers complete whatever the root drive answers, also while the registry lock is held: they take no lock and leave [drives], the objects and the network configuration as they are. *)
Theorem reconcilers_complete (s : state) path url :
  completes_aside ds (ensureDir path) s /\
  completes_aside ds (ensureMount path url) s /\
  completes_aside ds (ensureUnmount path) s.
Proof.
  repeat split; apply completes_aside_intro.
  all: wp_exec.
  all: repeat split; try reflexivity; unfold lock_events; events_norm; reflexivity.
Qed.

Lemma idempotent_intro (p : prog FS unit) failure s :
  wp False p (fun c1 s1 => c1 = Normal tt /\
    wp False p (fun c2 s2 => c2 = Normal tt /\
      (EvLogError failure ∉ new_events s s1 ->
       without_trace s2 = without_trace s1 /\ mutations s1 s2 = [])) s1) s ->
  idempotent ds p failure s.
Proof.
  intros Hwp.
  apply wp_total in Hwp as (s1 & c1 & Hrun1 & -> & Hwp).
  apply wp_total in Hwp as (s2 & c2 & Hrun2 & -> & Hpost).
  unfold idempotent. rewrite Hrun1. cbn [final_state]. rewrite Hrun2. cbn [final_state].
  done.
Qed.

Context `{!RootFSLaws FS}.

Ltac use_laws :=
  repeat match goal with
  | Hm : fs_mkdir _ _ = Some _ |- _ => apply stat_mkdir in Hm as (? & ? & ?)
  | Hm : fs_mount _ _ _ = Some _ |- _ => apply stat_mount in Hm as (? & ? & ?)
  | Hu : fs_unmount _ ?p = Some ?f, Hs : fs_stat ?f ?p = Some _ |- _ =>
      apply (stat_unmount _ _ _ _ Hu) in Hs
  | Hb : bool_decide _ = true |- _ => apply bool_decide_eq_true in Hb
  | Hb : bool_decide _ = false |- _ => apply bool_decide_eq_false in Hb
  end.

Ltac idempotent_leaf :=
  split; [reflexivity|];
  let Hnf := fresh "Hnf" in
  intros Hnf; events_norm_in Hnf;
  first
    [ solve [exfalso; apply Hnf; repeat constructor]
    | use_laws; simplify_eq;
      first [ congruence | contradiction
            | split; [without_trace_red; reflexivity | events_rel; reflexivity] ] ].

Lemma ensureDir_idempotent path s :
  idempotent ds (ensureDir path) "Filesystem failed to make directory" s.
Proof.
  apply idempotent_intro.
  wp_exec.
  all: (split; [reflexivity|]).
  all: wp_exec.
  all: idempotent_leaf.
Qed.

Lemma ensureMount_idempotent path url s :
  idempotent ds (ensureMount path url) "Filesystem failed to mount drive" s.
Proof.
  apply idempotent_intro.
  wp_exec.
  all: (split; [reflexivity|]).
  all: wp_exec.
  all: idempotent_leaf.
Qed.

Lemma ensureUnmount_idempotent path s :
  idempotent ds (ensureUnmount path) "Filesystem failed to unmount drive" s.
Proof.
  apply idempotent_intro.
  wp_exec.
  all: (split; [reflexivity|]).
  all: wp_exec.
  all: idempotent_leaf.
Qed.

(** X25. On a root drive where what succeeded is seen by the next [stat], each reconciler called a second time with the same arguments, after a first call that logged no failure, issues no [mkdir], [mount] or [unmount] and leaves the state as the first call left it. *)
Theorem reconcilers_idempotent path url s :
  idempotent ds (ensureDir path) "Filesystem failed to make directory" s /\
  idempotent ds (ensureMount path url) "Filesystem failed to mount drive" s /\
  idempotent ds (ensureUnmount path) "Filesystem failed to unmount drive" s.
Proof.
  split; [apply ensureDir_idempotent|].
  split; [apply ensureMount_idempotent|apply ensureUnmount_idempotent].
Qed.

End Reconcilers.

(** ** Calls in flight together *)

Section Serialised.
Context {FS : Type} `{RootFS FS}.
Variable ds : DriveStore.

Local Abbreviation state := (state FS).
Local Abbreviation prog := (prog FS).
Local Abbreviation res := (res FS).
Local Abbreviation task := (task FS).

Lemma handle_keeps {R} (o : op R) (s s' : state) x :
  held "filesystem:drives" s = true -> handle ds o s = Some (s', x) ->
  held "filesystem:drives" s' = true.
Proof.
  intros Hh. destruct o; cbn [handle]; unfold settle_fs.
  - destruct (held name s); intros [= <- <-]. unfold held in *. cbn [locks set_locks emit].
    apply bool_decide_eq_true. right. by apply bool_decide_eq_true in Hh.
  - by intros [= <- <-].
  - by intros [= <- <-].
  - by intros [= <- <-].
  - destruct (answers s); intros [= <- <-]. done.
  - destruct (fs_writeFile _ _ _); by intros [= <- <-].
  - by intros [= <- <-].
  - destruct (fs_mkdir _ _); by intros [= <- <-].
  - destruct (fs_mount _ _ _); by intros [= <- <-].
  - destruct (fs_unmount _ _); by intros [= <- <-].
Qed.

Lemma handle_lock {R} (o : op R) (s : state) :
  awaits_lock o ->
  if held "filesystem:drives" s then handle ds o s = None
  else exists x, handle ds o s =
         Some (set_locks (cons "filesystem:drives") (emit (EvLock "filesystem:drives") s), x).
Proof.
  destruct o; cbn [awaits_lock]; try done. intros ->. cbn [handle].
  destruct (held _ s); eauto.
Qed.

Lemma step_run (t t' : task) (s s' : state) :
  step_task ds t s = Some (s', t') -> run_task ds t s = run_task ds t' s'.
Proof.
  destruct t as [p|R o k|c]; cbn [step_task run_task].
  - intros [= Hp]. unfold run. destruct (p s); cbn [park] in Hp; by simplify_eq.
  - cbn [run_res]. destruct (handle ds o s) as [[s1 x]|]; [|done].
    intros [= Hp]. destruct (k x s1); cbn [park] in Hp; by simplify_eq.
  - done.
Qed.

(** A call that does not hold the lock takes a turn. *)
Lemma step_outside (t t' : task) (s s' : state) :
  outside t -> step_task ds t s = Some (s', t') ->
  (s' = s /\ outside t' /\ forall s0, run_task ds t' s0 = run_task ds t s0) \/
  (held "filesystem:drives" s = false /\
   ((held "filesystem:drives" s' = true /\ inside t') \/
    (held "filesystem:drives" s' = false /\ exists c, t' = Settled c))).
Proof.
  destruct t as [p|R o k|c]; cbn [outside step_task]; [| |done].
  - intros (k & Hp & Hk) [= Hs]. rewrite Hp in Hs. cbn [park] in Hs. simplify_eq.
    left. split; [done|]. split; [done|]. intros s0. cbn [run_task]. unfold run.
    by rewrite Hp.
  - intros [Ho Hk] Hs. pose proof (handle_lock o s Ho) as Hl.
    destruct (held "filesystem:drives" s) eqn:Hh.
    + by rewrite Hl in Hs.
    + right. split; [done|]. destruct Hl as [x Hl]. rewrite Hl in Hs.
      injection Hs as Hs.
      assert (Hg : guarded (k x (set_locks (cons "filesystem:drives")
                                   (emit (EvLock "filesystem:drives") s)))).
      { apply Hk. unfold held. cbn [locks set_locks emit]. apply bool_decide_eq_true. by left. }
      destruct (k x _) as [s1 c|R' o' s1 k']; cbn [park guarded] in *; simplify_eq.
      * right. eauto.
      * left. by destruct Hg.
Qed.

(** A call that holds the lock takes a turn. *)
Lemma step_inside (t t' : task) (s s' : state) :
  held "filesystem:drives" s = true -> inside t -> step_task ds t s = Some (s', t') ->
  (held "filesystem:drives" s' = true /\ inside t') \/
  (held "filesystem:drives" s' = false /\ exists c, t' = Settled c).
Proof.
  intros Hh. destruct t as [p|R o k|c]; cbn [inside step_task]; [done| |done].
  intros Hk Hs. destruct (handle ds o s) as [[s1 x]|] eqn:Ho; [|done].
  injection Hs as Hs. pose proof (Hk x s1 (handle_keeps o s s1 x Hh Ho)) as Hg.
  destruct (k x s1) as [s2 c|R' o' s2 k']; cbn [park guarded] in *; simplify_eq.
  - right. eauto.
  - left. by destruct Hg.
Qed.

(** Where the lock is held, a call outside can be made; it cannot go on. *)
Lemma step_outside_held (t t' : task) (s s' : state) :
  held "filesystem:drives" s = true -> outside t -> step_task ds t s = Some (s', t') ->
  s' = s /\ outside t' /\ forall s0, run_task ds t' s0 = run_task ds t s0.
Proof.
  intros Hh Ho Hs. destruct (step_outside t t' s s' Ho Hs) as [?|[Hf _]]; [done|congruence].
Qed.

Lemma first_then_step (s s' : state) (t1 t1' t2 : task) c1 c2 sf :
  step_task ds t1 s = Some (s', t1') ->
  first_then ds s' t1' t2 c1 c2 sf -> first_then ds s t1 t2 c1 c2 sf.
Proof. intros Hs (s1 & H1 & H2). exists s1. by rewrite (step_run _ _ _ _ Hs). Qed.

Lemma first_then_settled (s s' : state) (t1 t2 : task) c c1 c2 sf :
  step_task ds t1 s = Some (s', Settled c) ->
  first_then ds s' t2 (Settled c) c2 c1 sf -> first_then ds s t1 t2 c1 c2 sf.
Proof.
  intros Hs (s1 & H1 & H2). cbn [run_task] in H2. simplify_eq.
  exists s'. by rewrite (step_run _ _ _ _ Hs).
Qed.

Lemma first_then_same (s : state) (t1 t1' t2 : task) c1 c2 sf :
  (forall s0, run_task ds t1' s0 = run_task ds t1 s0) ->
  (first_then ds s t1' t2 c1 c2 sf -> first_then ds s t1 t2 c1 c2 sf) /\
  (first_then ds s t2 t1' c2 c1 sf -> first_then ds s t2 t1 c2 c1 sf).
Proof.
  intros Hsame. split; intros (s1 & H1 & H2); exists s1; by rewrite <- ?Hsame.
Qed.

Lemma exec_serial sched : forall (s : state) (t1 t2 : task) sf c1 c2,
  exec ds sched s t1 t2 = Some (sf, Settled c1, Settled c2) ->
  (held "filesystem:drives" s = false -> outside t1 -> outside t2 ->
   first_then ds s t1 t2 c1 c2 sf \/ first_then ds s t2 t1 c2 c1 sf) /\
  (held "filesystem:drives" s = true -> inside t1 -> outside t2 ->
   first_then ds s t1 t2 c1 c2 sf) /\
  (held "filesystem:drives" s = true -> outside t1 -> inside t2 ->
   first_then ds s t2 t1 c2 c1 sf).
Proof.
  induction sched as [|[] sched IH]; intros s t1 t2 sf c1 c2; cbn [exec].
  - intros [= -> -> ->]. split; [|split]; try done.
    intros _ _ _. left. by exists sf.
  - (* the second call takes the turn *)
    destruct (step_task ds t2 s) as [[s' t2']|] eqn:Hs; [|done].
    intros Hex. destruct (IH _ _ _ _ _ _ Hex) as (IHa & IHb & IHc).
    split; [|split].
    + intros Hh Ho1 Ho2.
      destruct (step_outside _ _ _ _ Ho2 Hs) as [(-> & Ho2' & Hsame)|[_ [[Hh' Hi]|[Hh' [c ->]]]]].
      * destruct (first_then_same s t2 t2' t1 c2 c1 sf Hsame) as [Hl Hr].
        destruct (IHa Hh Ho1 Ho2'); [left; by apply Hr | right; by apply Hl].
      * right. eapply first_then_step; [done|]. by apply IHc.
      * right. destruct (IHa Hh' Ho1 I) as [Hc|Hc].
        -- by eapply first_then_settled.
        -- by eapply first_then_step.
    + intros Hh Hi Ho2.
      destruct (step_outside_held _ _ _ _ Hh Ho2 Hs) as (-> & Ho2' & Hsame).
      destruct (first_then_same s t2 t2' t1 c2 c1 sf Hsame) as [Hl Hr].
      apply Hr. by apply IHb.
    + intros Hh Ho1 Hi.
      destruct (step_inside _ _ _ _ Hh Hi Hs) as [[Hh' Hi']|[Hh' [c ->]]].
      * eapply first_then_step; [done|]. by apply IHc.
      * destruct (IHa Hh' Ho1 I) as [Hc|Hc].
        -- by eapply first_then_settled.
        -- by eapply first_then_step.
  - (* the first call takes the turn *)
    destruct (step_task ds t1 s) as [[s' t1']|] eqn:Hs; [|done].
    intros Hex. destruct (IH _ _ _ _ _ _ Hex) as (IHa & IHb & IHc).
    split; [|split].
    + intros Hh Ho1 Ho2.
      destruct (step_outside _ _ _ _ Ho1 Hs) as [(-> & Ho1' & Hsame)|[_ [[Hh' Hi]|[Hh' [c ->]]]]].
      * destruct (first_then_same s t1 t1' t2 c1 c2 sf Hsame) as [Hl Hr].
        destruct (IHa Hh Ho1' Ho2); [left; by apply Hl | right; by apply Hr].
      * left. eapply first_then_step; [done|]. by apply IHb.
      * left. destruct (IHa Hh' I Ho2) as [Hc|Hc].
        -- by eapply first_then_step.
        -- by eapply first_then_settled.
    + intros Hh Hi Ho2.
      destruct (step_inside _ _ _ _ Hh Hi Hs) as [[Hh' Hi']|[Hh' [c ->]]].
      * eapply first_then_step; [done|]. by apply IHb.
      * destruct (IHa Hh' I Ho2) as [Hc|Hc].
        -- by eapply first_then_step.
        -- by eapply first_then_settled.
    + intros Hh Ho1 Hi.
      destruct (step_outside_held _ _ _ _ Hh Ho1 Hs) as (-> & Ho1' & Hsame).
      destruct (first_then_same s t1 t1' t2 c1 c2 sf Hsame) as [Hl Hr].
      apply Hr. by apply IHc.
Qed.

Lemma keeps_lock_bind_res {A B} (r : res A) (f : A -> prog B) :
  keeps_lock r -> (forall a, keeps_lock_prog (f a)) -> keeps_lock (bind_res r f).
Proof.
  intros Hr Hf. induction r as [s [a| |e]|R o s k IH]; cbn [bind_res keeps_lock] in *.
  - by apply Hf.
  - done.
  - done.
  - destruct Hr as [Hh Hk]. split; [done|]. intros x s' Hs'. apply IH. by apply Hk.
Qed.

Lemma keeps_lock_bind {A B} (p : prog A) (f : A -> prog B) :
  keeps_lock_prog p -> (forall a, keeps_lock_prog (f a)) -> keeps_lock_prog (p ≫= f).
Proof. intros Hp Hf s Hs. apply keeps_lock_bind_res; [by apply Hp|done]. Qed.

Lemma keeps_lock_ret {A} (a : A) : keeps_lock_prog (mret a : prog A).
Proof. by intros s Hs. Qed.

Lemma keeps_lock_gets {A} (f : state -> A) : keeps_lock_prog (gets f).
Proof. by intros s Hs. Qed.

Lemma keeps_lock_throw {A} e : keeps_lock_prog (throw e : prog A).
Proof. by intros s Hs. Qed.

Lemma keeps_lock_return {A} : keeps_lock_prog (return_ : prog A).
Proof. by intros s Hs. Qed.

Lemma keeps_lock_modify (f : state -> state) :
  (forall s, locks (f s) = locks s) -> keeps_lock_prog (modify f).
Proof. intros Hf s Hs. cbn [modify keeps_lock]. unfold held in *. by rewrite Hf. Qed.

Lemma keeps_lock_new_cfg c : keeps_lock_prog (new_cfg c : prog loc).
Proof. by intros s Hs. Qed.

Lemma keeps_lock_new_fork f : keeps_lock_prog (new_fork f : prog loc).
Proof. by intros s Hs. Qed.

Lemma keeps_lock_await {R} (o : op R) : keeps_lock_prog (await o : prog R).
Proof. intros s Hs. cbn [await keeps_lock]. split; [done|]. by intros x s' Hs'. Qed.

Lemma keeps_lock_awaitT {R} what (o : op (option R)) :
  keeps_lock_prog (awaitT what o : prog R).
Proof.
  apply keeps_lock_bind; [apply keeps_lock_await|].
  intros [x|]; [apply keeps_lock_ret|apply keeps_lock_throw].
Qed.

Lemma keeps_lock_when (b : bool) (p : prog unit) :
  keeps_lock_prog p -> keeps_lock_prog (when b p).
Proof. destruct b; [done|]. intros _. apply keeps_lock_ret. Qed.

Lemma guarded_finally {A} (r : res A) :
  keeps_lock r -> guarded (finally_res r (unlock "filesystem:drives")).
Proof.
  induction r as [s c|R o s k IH]; cbn [finally_res keeps_lock guarded].
  - intros _. cbn. apply held_unlock.
  - intros [Hh Hk]. split; [done|]. intros x s' Hs'. apply IH. by apply Hk.
Qed.

Ltac keeps_lock_step :=
  lazymatch goal with
  | |- keeps_lock_prog (mbind _ _) => apply keeps_lock_bind; [|intros ?]
  | |- keeps_lock_prog (mret _) => apply keeps_lock_ret
  | |- keeps_lock_prog (gets _) => apply keeps_lock_gets
  | |- keeps_lock_prog (throw _) => apply keeps_lock_throw
  | |- keeps_lock_prog return_ => apply keeps_lock_return
  | |- keeps_lock_prog (modify _) => apply keeps_lock_modify; intros ?; reflexivity
  | |- keeps_lock_prog (new_cfg _) => apply keeps_lock_new_cfg
  | |- keeps_lock_prog (new_fork _) => apply keeps_lock_new_fork
  | |- keeps_lock_prog (await _) => apply keeps_lock_await
  | |- keeps_lock_prog (awaitT _ _) => apply keeps_lock_awaitT
  | |- keeps_lock_prog (when _ _) => apply keeps_lock_when
  | |- keeps_lock_prog (match ?x with _ => _ end) => destruct x
  | |- keeps_lock_prog ?p => let h := head_of p in unfold h
  end.

(** [configDrive] and [removeDrive] await the lock first and do all the rest holding it. *)
Lemma serial_call (r : registry_call) : serial (call r : prog unit).
Proof.
  destruct r as [url forkOf|url]; cbn [call].
  all: eexists; (split; [intros s; reflexivity|]).
  all: intros x s' Hs'; cbn [bind_res mret prog_ret]; apply guarded_finally.
  all: revert s' Hs'.
  all: match goal with
       | |- forall s', _ -> keeps_lock (?p s') => change (keeps_lock_prog p)
       end.
  all: repeat keeps_lock_step.
Qed.

(** X26. Two calls of [configDrive] or [removeDrive] in flight together, whatever turns the event loop gives them: when both have settled, the state and the two completions are those of one call run alone to its end followed by the other. *)
Theorem registry_calls_serialised sched (s : state) r1 r2 sf c1 c2 :
  held "filesystem:drives" s = false ->
  exec ds sched s (Ready (call r1)) (Ready (call r2)) = Some (sf, Settled c1, Settled c2) ->
  (exists s1, run ds (call r1) s = Finished s1 c1 /\ run ds (call r2) s1 = Finished sf c2) \/
  (exists s1, run ds (call r2) s = Finished s1 c2 /\ run ds (call r1) s1 = Finished sf c1).
Proof.
  intros Hh Hex.
  destruct (exec_serial _ _ _ _ _ _ _ Hex) as (Hfree & _ & _).
  apply (Hfree Hh); cbn [outside]; apply serial_call.
Qed.



End Serialised.

(** ** The calls on the root drive held in memory *)

(** The root drive held in memory shows what succeeded. *)
Lemma memory_fs_laws : RootFSLaws (gmap string MemoryDrive.node).
Proof.
  split; cbn [fs_stat fs_mkdir fs_mount fs_unmount fs_writeFile fs_readFile MemoryDrive.memory_fs].
  - intros fs fs' p. unfold MemoryDrive.m_mkdir, MemoryDrive.m_stat.
    destruct (fs !! p) eqn:?; intros ?; simplify_eq. rewrite lookup_insert_eq. eauto.
  - intros fs fs' p k. unfold MemoryDrive.m_mount, MemoryDrive.m_stat.
    destruct (fs !! p) eqn:?; intros ?; simplify_eq. rewrite lookup_insert_eq. eauto.
  - intros fs fs' p st. unfold MemoryDrive.m_unmount, MemoryDrive.m_stat.
    destruct (fs !! p) as [[]|] eqn:?; intros ?; simplify_eq. by rewrite lookup_delete_eq.
  - intros fs fs' p d. unfold MemoryDrive.m_writeFile, MemoryDrive.m_readFile.
    destruct (fs !! p) as [[]|] eqn:?; intros ?; simplify_eq; by rewrite lookup_insert_eq.
Qed.



Lemma removeDrive_absent_witness :
  let s := MemoryDrive.init ∅ in
  let s' := final_state (run MemoryDrive.world (removeDrive "hyper://aa") s) in
  held "filesystem:drives" s = false /\
  fromURLToKey MemoryDrive.world "hyper://aa" = Some "aa" /\
  find_key (cfgs s) (Some "aa") (drives s) = None /\
  run MemoryDrive.world (removeDrive "hyper://aa") s = Finished s' Return /\
  without_trace s' = without_trace s /\
  new_events s s' =
    [EvLock "filesystem:drives"; EvFromURLToKey "hyper://aa";
     EvRelease "filesystem:drives"].
Proof.
  intros s s'.
  assert (Hl : held "filesystem:drives" s = false) by reflexivity.
  assert (Hk : fromURLToKey MemoryDrive.world "hyper://aa" = Some "aa")
    by (vm_compute; reflexivity).
  assert (Hf : find_key (cfgs s) (Some "aa") (drives s) = None) by (vm_compute; reflexivity).
  do 3 (split; [assumption|]).
  destruct (removeDrive_absent MemoryDrive.world s "hyper://aa" "aa" Hl Hk Hf)
    as (s1 & c & Hrun & -> & Hpost).
  assert (Hs : s' = s1) by (subst s'; rewrite Hrun; reflexivity).
  rewrite Hs. split; [exact Hrun | exact Hpost].
Defined.

Lemma removeDrive_present_witness :
  let s := Scenarios.registered in
  let d := MemoryDrive.plain "dd" false in
  let s' := final_state (run MemoryDrive.world (removeDrive "hyper://dd") s) in
  held "filesystem:drives" s = false /\
  fromURLToKey MemoryDrive.world "hyper://dd" = Some "dd" /\
  find_key (cfgs s) (Some "dd") (drives s) = Some (0, 0) /\
  getOrLoadDrive MemoryDrive.world "hyper://dd" = Some d /\
  drives s = [0] /\
  exists c,
    run MemoryDrive.world (removeDrive "hyper://dd") s = Finished s' c /\
    drives s' = delete 0 (drives s) /\
    cfgs s' = cfgs s /\ forks s' = forks s /\ locks s' = locks s /\
    network s' = <[drive_key d := unseed]> (network s) /\
    mutations s s' = [EvWriteFile "/drives.json" (JSON_stringify s')] /\
    c = Normal tt /\
    Some (rootfs s') = fs_writeFile (rootfs s) "/drives.json" (JSON_stringify s').
Proof.
  intros s d s'.
  assert (Hl : held "filesystem:drives" s = false) by (vm_compute; reflexivity).
  assert (Hk : fromURLToKey MemoryDrive.world "hyper://dd" = Some "dd")
    by (vm_compute; reflexivity).
  assert (Hf : find_key (cfgs s) (Some "dd") (drives s) = Some (0, 0))
    by (vm_compute; reflexivity).
  assert (Hd : getOrLoadDrive MemoryDrive.world "hyper://dd" = Some d)
    by (vm_compute; reflexivity).
  do 4 (split; [assumption|]). split; [vm_compute; reflexivity|].
  destruct (removeDrive_present MemoryDrive.world s "hyper://dd" "dd" 0 0 d Hl Hk Hf Hd)
    as (s1 & c & Hrun & H1 & H2 & H3 & H4 & H5 & H6 & H7).
  assert (Hs : s' = s1) by (subst s'; rewrite Hrun; reflexivity).
  rewrite Hs. exists c.
  destruct (fs_writeFile (rootfs s) "/drives.json" (JSON_stringify s1)) as [fs'|] eqn:Hw.
  - destruct H7 as [-> ->]. repeat split; assumption.
  - exfalso. destruct (fs_writeFile (rootfs s) "/drives.json" (JSON_stringify s')) eqn:Hw'.
    + rewrite Hs in Hw'. congruence.
    + vm_compute in Hw'. discriminate Hw'.
Defined.

Lemma removeDrive_rejected_witness :
  let s := MemoryDrive.init ∅ in
  let s' := final_state (run MemoryDrive.world (removeDrive "hyper://zz") s) in
  let r := Scenarios.registered in
  let r' := final_state (run Scenarios.offline (removeDrive "hyper://dd") r) in
  (held "filesystem:drives" s = false /\
   fromURLToKey MemoryDrive.world "hyper://zz" = None /\
   run MemoryDrive.world (removeDrive "hyper://zz") s =
     Finished s' (Throw (Rejected "fromURLToKey")) /\
   without_trace s' = without_trace s) /\
  (held "filesystem:drives" r = false /\
   fromURLToKey Scenarios.offline "hyper://dd" = Some "dd" /\
   is_Some (find_key (cfgs r) (Some "dd") (drives r)) /\
   getOrLoadDrive Scenarios.offline "hyper://dd" = None /\
   run Scenarios.offline (removeDrive "hyper://dd") r =
     Finished r' (Throw (Rejected "getOrLoadDrive")) /\
   drives r' = [0] /\
   without_trace r' = without_trace r).
Proof.
  intros s s' r r'. split.
  - assert (Hl : held "filesystem:drives" s = false) by reflexivity.
    assert (Hk : fromURLToKey MemoryDrive.world "hyper://zz" = None)
      by (vm_compute; reflexivity).
    do 2 (split; [assumption|]).
    destruct (removeDrive_rejected MemoryDrive.world s "hyper://zz" Hl)
      as (s1 & c & Hrun & Hnone & _).
    assert (Hs : s' = s1) by (subst s'; rewrite Hrun; reflexivity).
    destruct (Hnone Hk) as (-> & Hsame & _). rewrite Hs. split; assumption.
  - assert (Hl : held "filesystem:drives" r = false) by (vm_compute; reflexivity).
    assert (Hk : fromURLToKey Scenarios.offline "hyper://dd" = Some "dd")
      by (vm_compute; reflexivity).
    assert (Hf : is_Some (find_key (cfgs r) (Some "dd") (drives r)))
      by (exists (0, 0); vm_compute; reflexivity).
    assert (Hd : getOrLoadDrive Scenarios.offline "hyper://dd" = None) by reflexivity.
    do 4 (split; [assumption|]).
    destruct (removeDrive_rejected Scenarios.offline r "hyper://dd" Hl)
      as (r1 & c & Hrun & _ & Hload).
    assert (Hs : r' = r1) by (subst r'; rewrite Hrun; reflexivity).
    destruct (Hload "dd" Hk Hf Hd) as (-> & Hsame & _). rewrite Hs.
    split; [exact Hrun|]. split; [|exact Hsame].
    rewrite <- Hs. vm_compute. reflexivity.
Defined.

Lemma removeDrive_then_getDriveConfig_witness :
  let s := Scenarios.registered in
  let d := MemoryDrive.plain "dd" false in
  let s' := final_state (run MemoryDrive.world (removeDrive "hyper://dd") s) in
  fromURLToKey MemoryDrive.world "hyper://dd" = Some "dd" /\
  find_key (cfgs s) (Some "dd") (drives s) = Some (0, 0) /\
  getOrLoadDrive MemoryDrive.world "hyper://dd" = Some d /\
  run MemoryDrive.world (removeDrive "hyper://dd") s = Finished s' (Normal tt) /\
  NoDup (registry_keys s) /\
  run MemoryDrive.world (getDriveConfig "dd") s = Finished s (Normal (Some 0)) /\
  run MemoryDrive.world (getDriveConfig "dd") s' = Finished s' (Normal None).
Proof.
  intros s d s'.
  assert (Hk : fromURLToKey MemoryDrive.world "hyper://dd" = Some "dd")
    by (vm_compute; reflexivity).
  assert (Hf : find_key (cfgs s) (Some "dd") (drives s) = Some (0, 0))
    by (vm_compute; reflexivity).
  assert (Hd : getOrLoadDrive MemoryDrive.world "hyper://dd" = Some d)
    by (vm_compute; reflexivity).
  assert (Hrun : run MemoryDrive.world (removeDrive "hyper://dd") s = Finished s' (Normal tt))
    by (vm_compute; reflexivity).
  assert (Hnd : NoDup (registry_keys s)) by (vm_compute; apply NoDup_singleton).
  do 5 (split; [assumption|]). split; [vm_compute; reflexivity|].
  exact (proj2 (removeDrive_then_getDriveConfig MemoryDrive.world s "hyper://dd" "dd" 0 0 d s'
                  (Normal tt) Hk Hf Hd Hrun) Hnd).
Defined.

Lemma registry_calls_bracketed_witness :
  let s := MemoryDrive.init ∅ in
  let s' := final_state (run MemoryDrive.world (configDrive "hyper://dd" ArgUndefined) s) in
  (run MemoryDrive.world (configDrive "hyper://dd" ArgUndefined) s = Finished s' (Normal tt) \/
   run MemoryDrive.world (removeDrive "hyper://dd") s = Finished s' (Normal tt)) /\
  head (new_events s s') = Some (EvLock "filesystem:drives") /\
  last (new_events s s') = Some (EvRelease "filesystem:drives") /\
  lock_events s s' = [EvLock "filesystem:drives"; EvRelease "filesystem:drives"] /\
  locks s' = locks s.
Proof.
  intros s s'.
  assert (Hrun : run MemoryDrive.world (configDrive "hyper://dd" ArgUndefined) s =
                 Finished s' (Normal tt)) by (vm_compute; reflexivity).
  split; [left; exact Hrun|].
  exact (registry_calls_bracketed MemoryDrive.world s "hyper://dd" ArgUndefined s' (Normal tt)
           (or_introl Hrun)).
Defined.

Lemma configDrive_existing_witness :
  let s := set_forks (fun _ => [ {| fork_key := Some "aa"; fork_label := Some "dev" |} ])
             Scenarios.registered in
  let s' := final_state (run MemoryDrive.world (configDrive "hyper://dd" (ArgObject 0)) s) in
  held "filesystem:drives" s = false /\
  fromURLToKey MemoryDrive.world "hyper://dd" = Some "dd" /\
  find_key (cfgs s) (Some "dd") (drives s) = Some (0, 0) /\
  exists c,
    run MemoryDrive.world (configDrive "hyper://dd" (ArgObject 0)) s = Finished s' c /\
    drives s' = drives s /\ forks s' = forks s /\ network s' = network s /\
    locks s' = locks s /\
    cfgs s' = alter (put_forkOf (Some 0)) 0 (cfgs s) /\
    new_events s s' =
      [EvLock "filesystem:drives"; EvFromURLToKey "hyper://dd";
       EvWriteFile "/drives.json" (JSON_stringify s'); EvRelease "filesystem:drives"].
Proof.
  intros s s'.
  assert (Hl : held "filesystem:drives" s = false) by (vm_compute; reflexivity).
  assert (Hk : fromURLToKey MemoryDrive.world "hyper://dd" = Some "dd")
    by (vm_compute; reflexivity).
  assert (Hf : find_key (cfgs s) (Some "dd") (drives s) = Some (0, 0))
    by (vm_compute; reflexivity).
  do 3 (split; [assumption|]).
  destruct (configDrive_existing MemoryDrive.world s "hyper://dd" (ArgObject 0) "dd" 0 0
              Hl Hk Hf) as (s1 & c & Hrun & H1 & H2 & H3 & H4 & H5 & H6 & _).
  assert (Hs : s' = s1) by (subst s'; rewrite Hrun; reflexivity).
  rewrite Hs. exists c. repeat split; assumption.
Defined.

Lemma configDrive_new_entry_witness :
  let s := MemoryDrive.init ∅ in
  let d := MemoryDrive.plain "dd" false in
  let m := {| mf_forkOf := None |} in
  let s' := final_state (run MemoryDrive.world (configDrive "hyper://dd" ArgOther) s) in
  held "filesystem:drives" s = false /\
  fromURLToKey MemoryDrive.world "hyper://dd" = Some "dd" /\
  find_key (cfgs s) (Some "dd") (drives s) = None /\
  getOrLoadDrive MemoryDrive.world "hyper://dd" = Some d /\
  drive_manifest d = Some m /\
  truthy (mf_forkOf m) = false /\
  exists c,
    run MemoryDrive.world (configDrive "hyper://dd" ArgOther) s = Finished s' c /\
    drives s' = drives s ++ [length (cfgs s)] /\
    cfgs s' = cfgs s ++ [ {| cfg_key := Some "dd"; cfg_forkOf := None |} ] /\
    forks s' = forks s /\ locks s' = locks s /\
    network s' = <[drive_key d := seed]> (network s).
Proof.
  intros s d m s'.
  assert (Hl : held "filesystem:drives" s = false) by reflexivity.
  assert (Hk : fromURLToKey MemoryDrive.world "hyper://dd" = Some "dd")
    by (vm_compute; reflexivity).
  assert (Hf : find_key (cfgs s) (Some "dd") (drives s) = None) by (vm_compute; reflexivity).
  assert (Hd : getOrLoadDrive MemoryDrive.world "hyper://dd" = Some d)
    by (vm_compute; reflexivity).
  assert (Hm : drive_manifest d = Some m) by reflexivity.
  assert (Ht : truthy (mf_forkOf m) = false) by reflexivity.
  do 6 (split; [assumption|]).
  destruct (configDrive_new_entry MemoryDrive.world s "hyper://dd" ArgOther "dd" d m
              Hl Hk Hf Hd Hm Ht) as (s1 & c & Hrun & H1 & H2 & H3 & H4 & H5 & _).
  assert (Hs : s' = s1) by (subst s'; rewrite Hrun; reflexivity).
  rewrite Hs. exists c. repeat split; assumption.
Defined.

Lemma configDrive_manifest_overrides_key_witness :
  let s := MemoryDrive.holding {| fork_key := Some "zz"; fork_label := Some "mine" |} in
  let d := MemoryDrive.fork "bb" "hyper://aa" false in
  let m := {| mf_forkOf := Some "hyper://aa" |} in
  let s' := final_state (run MemoryDrive.world (configDrive "hyper://bb" (ArgObject 0)) s) in
  held "filesystem:drives" s = false /\
  fromURLToKey MemoryDrive.world "hyper://bb" = Some "bb" /\
  find_key (cfgs s) (Some "bb") (drives s) = None /\
  getOrLoadDrive MemoryDrive.world "hyper://bb" = Some d /\
  drive_manifest d = Some m /\
  mf_forkOf m = Some "hyper://aa" /\
  truthy (Some "hyper://aa") = true /\
  fromURLToKey MemoryDrive.world "hyper://aa" = Some "aa" /\
  fork_label_of (forks s) 0 = Some "mine" /\
  truthy (Some "mine") = true /\
  fork_key_of (forks s) 0 = Some "zz" /\
  exists c,
    run MemoryDrive.world (configDrive "hyper://bb" (ArgObject 0)) s = Finished s' c /\
    forks s' = alter (put_key (Some "aa")) 0 (forks s) /\
    fork_key_of (forks s') 0 = Some "aa" /\
    fork_label_of (forks s') 0 = Some "mine" /\
    forkOf_of (cfgs s') (length (cfgs s)) = Some 0 /\
    last (drives s') = Some (length (cfgs s)) /\
    (forall message answer, EvPrompt message answer ∉ new_events s s').
Proof.
  intros s d m s'.
  assert (Hl : held "filesystem:drives" s = false) by reflexivity.
  assert (Hk : fromURLToKey MemoryDrive.world "hyper://bb" = Some "bb")
    by (vm_compute; reflexivity).
  assert (Hf : find_key (cfgs s) (Some "bb") (drives s) = None) by (vm_compute; reflexivity).
  assert (Hd : getOrLoadDrive MemoryDrive.world "hyper://bb" = Some d)
    by (vm_compute; reflexivity).
  assert (Hm : drive_manifest d = Some m) by reflexivity.
  assert (Hmf : mf_forkOf m = Some "hyper://aa") by reflexivity.
  assert (Hp : truthy (Some "hyper://aa") = true) by (vm_compute; reflexivity).
  assert (Hpk : fromURLToKey MemoryDrive.world "hyper://aa" = Some "aa")
    by (vm_compute; reflexivity).
  assert (Hlab : fork_label_of (forks s) 0 = Some "mine") by (vm_compute; reflexivity).
  assert (Hlt : truthy (Some "mine") = true) by (vm_compute; reflexivity).
  do 10 (split; [assumption|]). split; [vm_compute; reflexivity|].
  destruct (configDrive_manifest_overrides_key MemoryDrive.world s "hyper://bb" 0 "bb" d m
              "hyper://aa" "aa" "mine" Hl Hk Hf Hd Hm Hmf Hp Hpk Hlab Hlt)
    as (s1 & c & Hrun & Hpost).
  assert (Hs : s' = s1) by (subst s'; rewrite Hrun; reflexivity).
  rewrite Hs. exists c. split; assumption.
Defined.

Lemma configDrive_prompt_sets_label_witness :
  let s := MemoryDrive.asking [Some (PromptObject (Some "dev"))] in
  let d := MemoryDrive.fork "bb" "hyper://aa" false in
  let m := {| mf_forkOf := Some "hyper://aa" |} in
  let s' := final_state (run MemoryDrive.world (configDrive "hyper://bb" ArgUndefined) s) in
  held "filesystem:drives" s = false /\
  fromURLToKey MemoryDrive.world "hyper://bb" = Some "bb" /\
  find_key (cfgs s) (Some "bb") (drives s) = None /\
  getOrLoadDrive MemoryDrive.world "hyper://bb" = Some d /\
  drive_manifest d = Some m /\
  mf_forkOf m = Some "hyper://aa" /\
  truthy (Some "hyper://aa") = true /\
  fromURLToKey MemoryDrive.world "hyper://aa" = Some "aa" /\
  (forall f, ArgUndefined ≠ ArgObject f) /\
  focusedWindow s = true /\
  answers s = [Some (PromptObject (Some "dev"))] /\
  truthy (Some "dev") = true /\
  exists c,
    run MemoryDrive.world (configDrive "hyper://bb" ArgUndefined) s = Finished s' c /\
    forks s' = forks s ++ [ {| fork_key := Some "aa"; fork_label := Some "dev" |} ] /\
    forkOf_of (cfgs s') (length (cfgs s)) = Some (length (forks s)) /\
    key_of (cfgs s') (length (cfgs s)) = Some "bb" /\
    last (drives s') = Some (length (cfgs s)) /\
    answers s' = [] /\
    filter (fun e => is_store_event e = true) (new_events s s') =
      [EvGetOrLoadDrive "hyper://bb"; EvReadManifest (drive_key d)] ++
      (if writable d then [] else [EvConfigureNetwork (drive_key d) seed]) ++
      [EvPrompt prompt_message (Some (PromptObject (Some "dev")))].
Proof.
  intros s d m s'.
  assert (Hl : held "filesystem:drives" s = false) by reflexivity.
  assert (Hk : fromURLToKey MemoryDrive.world "hyper://bb" = Some "bb")
    by (vm_compute; reflexivity).
  assert (Hf : find_key (cfgs s) (Some "bb") (drives s) = None) by (vm_compute; reflexivity).
  assert (Hd : getOrLoadDrive MemoryDrive.world "hyper://bb" = Some d)
    by (vm_compute; reflexivity).
  assert (Hm : drive_manifest d = Some m) by reflexivity.
  assert (Hmf : mf_forkOf m = Some "hyper://aa") by reflexivity.
  assert (Hp : truthy (Some "hyper://aa") = true) by (vm_compute; reflexivity).
  assert (Hpk : fromURLToKey MemoryDrive.world "hyper://aa" = Some "aa")
    by (vm_compute; reflexivity).
  assert (Hno : forall f, ArgUndefined ≠ ArgObject f) by (intros f; discriminate).
  assert (Hfw : focusedWindow s = true) by reflexivity.
  assert (Ha : answers s = [Some (PromptObject (Some "dev"))]) by reflexivity.
  assert (Hv : truthy (Some "dev") = true) by (vm_compute; reflexivity).
  do 12 (split; [assumption|]).
  destruct (configDrive_prompt_sets_label MemoryDrive.world s "hyper://bb" ArgUndefined "bb" d m
              "hyper://aa" "aa" "dev" [] Hl Hk Hf Hd Hm Hmf Hp Hpk Hno Hfw Ha Hv)
    as (s1 & c & Hrun & H1 & H2 & H3 & H4 & H5 & H6 & _).
  assert (Hs : s' = s1) by (subst s'; rewrite Hrun; reflexivity).
  rewrite Hs. exists c. repeat split; assumption.
Defined.


Lemma configDrive_no_window_witness :
  let s := Scenarios.unfocused in
  let d := MemoryDrive.fork "bb" "hyper://aa" false in
  let m := {| mf_forkOf := Some "hyper://aa" |} in
  let s' := final_state (run MemoryDrive.world (configDrive "hyper://bb" ArgUndefined) s) in
  held "filesystem:drives" s = false /\
  fromURLToKey MemoryDrive.world "hyper://bb" = Some "bb" /\
  find_key (cfgs s) (Some "bb") (drives s) = None /\
  getOrLoadDrive MemoryDrive.world "hyper://bb" = Some d /\
  drive_manifest d = Some m /\
  mf_forkOf m = Some "hyper://aa" /\
  truthy (Some "hyper://aa") = true /\
  fromURLToKey MemoryDrive.world "hyper://aa" = Some "aa" /\
  (forall f, ArgUndefined = ArgObject f -> truthy (fork_label_of (forks s) f) = false) /\
  focusedWindow s = false /\
  run MemoryDrive.world (configDrive "hyper://bb" ArgUndefined) s =
    Finished s' (Throw (TypeError "Cannot read property 'webContents' of null")) /\
  drives s' = drives s /\ rootfs s' = rootfs s /\ locks s' = locks s /\
  network s' = (if writable d then network s else <[drive_key d := seed]> (network s)) /\
  mutations s s' = [] /\
  (forall message answer, EvPrompt message answer ∉ new_events s s').
Proof.
  intros s d m s'.
  assert (Hl : held "filesystem:drives" s = false) by reflexivity.
  assert (Hk : fromURLToKey MemoryDrive.world "hyper://bb" = Some "bb")
    by (vm_compute; reflexivity).
  assert (Hf : find_key (cfgs s) (Some "bb") (drives s) = None) by (vm_compute; reflexivity).
  assert (Hd : getOrLoadDrive MemoryDrive.world "hyper://bb" = Some d)
    by (vm_compute; reflexivity).
  assert (Hm : drive_manifest d = Some m) by reflexivity.
  assert (Hmf : mf_forkOf m = Some "hyper://aa") by reflexivity.
  assert (Hp : truthy (Some "hyper://aa") = true) by (vm_compute; reflexivity).
  assert (Hpk : fromURLToKey MemoryDrive.world "hyper://aa" = Some "aa")
    by (vm_compute; reflexivity).
  assert (Hlabel : forall f, ArgUndefined = ArgObject f ->
                     truthy (fork_label_of (forks s) f) = false)
    by (intros f Hf'; discriminate Hf').
  assert (Hfw : focusedWindow s = false) by reflexivity.
  do 10 (split; [assumption|]).
  destruct (configDrive_no_window MemoryDrive.world s "hyper://bb" ArgUndefined "bb" d m
              "hyper://aa" "aa" Hl Hk Hf Hd Hm Hmf Hp Hpk Hlabel Hfw)
    as (s1 & c & Hrun & -> & Hpost).
  assert (Hs : s' = s1) by (subst s'; rewrite Hrun; reflexivity).
  rewrite Hs. split; assumption.
Defined.


Lemma configDrive_registers_witness :
  let s := MemoryDrive.init ∅ in
  let s' := final_state (run MemoryDrive.world (configDrive "hyper://dd" ArgUndefined) s) in
  run MemoryDrive.world (configDrive "hyper://dd" ArgUndefined) s = Finished s' (Normal tt) /\
  exists key c0,
    fromURLToKey MemoryDrive.world "hyper://dd" = Some key /\
    run MemoryDrive.world (getDriveConfig key) s' = Finished s' (Normal (Some c0)) /\
    c0 ∈ drives s' /\ key_of (cfgs s') c0 = Some key.
Proof.
  intros s s'.
  assert (Hrun : run MemoryDrive.world (configDrive "hyper://dd" ArgUndefined) s =
                 Finished s' (Normal tt)) by (vm_compute; reflexivity).
  split; [assumption|].
  exact (configDrive_registers MemoryDrive.world s "hyper://dd" ArgUndefined s' Hrun).
Defined.

Lemma registry_document_in_sync_witness :
  let s := MemoryDrive.init ∅ in
  let s' := final_state (run MemoryDrive.world (configDrive "hyper://dd" ArgUndefined) s) in
  run MemoryDrive.world (configDrive "hyper://dd" ArgUndefined) s = Finished s' (Normal tt) /\
  persisted s' = Some {| doc_drives := [ {| doc_key := Some "dd"; doc_forkOf := None |} ] |} /\
  persisted s' = Some (JSON_stringify s') /\
  mutations s s' = [EvWriteFile "/drives.json" (JSON_stringify s')].
Proof.
  intros s s'.
  assert (Hrun : run MemoryDrive.world (configDrive "hyper://dd" ArgUndefined) s =
                 Finished s' (Normal tt)) by (vm_compute; reflexivity).
  split; [assumption|]. split; [vm_compute; reflexivity|].
  exact (registry_document_in_sync (RootFSLaws0 := memory_fs_laws) MemoryDrive.world s
           "hyper://dd" ArgUndefined s' (or_introl Hrun)).
Defined.


Lemma configDrive_again_witness :
  let s := MemoryDrive.init ∅ in
  let s1 := final_state (run MemoryDrive.world (configDrive "hyper://dd" ArgUndefined) s) in
  let s2 := final_state (run MemoryDrive.world (configDrive "hyper://dd" ArgUndefined) s1) in
  run MemoryDrive.world (configDrive "hyper://dd" ArgUndefined) s = Finished s1 (Normal tt) /\
  run MemoryDrive.world (configDrive "hyper://dd" ArgUndefined) s1 = Finished s2 (Normal tt) /\
  drives s1 = [0] /\
  (drives s2 = drives s1 /\ cfgs s2 = cfgs s1 /\ forks s2 = forks s1 /\
   network s2 = network s1 /\
   JSON_stringify s2 = JSON_stringify s1 /\
   filter (fun e => is_store_event e = true) (new_events s1 s2) = [] /\
   mutations s1 s2 = [EvWriteFile "/drives.json" (JSON_stringify s1)]).
Proof.
  intros s s1 s2.
  assert (Hrun1 : run MemoryDrive.world (configDrive "hyper://dd" ArgUndefined) s =
                  Finished s1 (Normal tt)) by (vm_compute; reflexivity).
  assert (Hrun2 : run MemoryDrive.world (configDrive "hyper://dd" ArgUndefined) s1 =
                  Finished s2 (Normal tt)) by (vm_compute; reflexivity).
  do 2 (split; [assumption|]). split; [vm_compute; reflexivity|].
  exact (configDrive_again MemoryDrive.world s "hyper://dd" ArgUndefined s1 s2 (Normal tt)
           Hrun1 Hrun2).
Defined.

Lemma configDrive_then_removeDrive_witness :
  let s := MemoryDrive.init ∅ in
  let d := MemoryDrive.plain "dd" false in
  let m := {| mf_forkOf := None |} in
  let s1 := final_state (run MemoryDrive.world (configDrive "hyper://dd" ArgUndefined) s) in
  let s2 := final_state (run MemoryDrive.world (removeDrive "hyper://dd") s1) in
  held "filesystem:drives" s = false /\
  fromURLToKey MemoryDrive.world "hyper://dd" = Some "dd" /\
  find_key (cfgs s) (Some "dd") (drives s) = None /\
  getOrLoadDrive MemoryDrive.world "hyper://dd" = Some d /\
  drive_manifest d = Some m /\
  truthy (mf_forkOf m) = false /\
  well_formed s /\
  exists c1 c2,
    run MemoryDrive.world (configDrive "hyper://dd" ArgUndefined) s = Finished s1 c1 /\
    run MemoryDrive.world (removeDrive "hyper://dd") s1 = Finished s2 c2 /\
    drives s1 = drives s ++ [length (cfgs s)] /\
    drives s2 = drives s /\
    JSON_stringify s2 = JSON_stringify s /\
    network s2 = (if writable d then network s else <[drive_key d := unseed]> (network s)) /\
    mutations s1 s2 = [EvWriteFile "/drives.json" (JSON_stringify s)].
Proof.
  intros s d m s1 s2.
  assert (Hl : held "filesystem:drives" s = false) by reflexivity.
  assert (Hk : fromURLToKey MemoryDrive.world "hyper://dd" = Some "dd")
    by (vm_compute; reflexivity).
  assert (Hf : find_key (cfgs s) (Some "dd") (drives s) = None) by (vm_compute; reflexivity).
  assert (Hd : getOrLoadDrive MemoryDrive.world "hyper://dd" = Some d)
    by (vm_compute; reflexivity).
  assert (Hm : drive_manifest d = Some m) by reflexivity.
  assert (Ht : truthy (mf_forkOf m) = false) by reflexivity.
  assert (Hwf : well_formed s) by apply Forall_nil_2.
  do 7 (split; [assumption|]).
  destruct (configDrive_then_removeDrive MemoryDrive.world s "hyper://dd" ArgUndefined "dd" d m
              Hl Hk Hf Hd Hm Ht Hwf)
    as (t1 & c1 & Hrun1 & t2 & c2 & Hrun2 & H1 & H2 & H3 & H4 & H5 & _).
  assert (Hs1 : s1 = t1) by (subst s1; rewrite Hrun1; reflexivity).
  assert (Hs2 : s2 = t2) by (subst s2; rewrite Hs1, Hrun2; reflexivity).
  rewrite Hs2, Hs1. exists c1, c2. repeat split; assumption.
Defined.

Lemma getAvailableName_first_free_witness :
  let fs : gmap string MemoryDrive.node :=
    {[ "/dir/report" := MemoryDrive.File None; "/dir/report-2" := MemoryDrive.File None;
       "/dir/report-3" := MemoryDrive.Dir ]} in
  let s := MemoryDrive.init fs in
  let s0 := MemoryDrive.init ∅ in
  (exists s',
     run MemoryDrive.world (getAvailableName MemoryDrive.join "/dir" "report" None None) s =
       Finished s' (Normal "report-4") /\
     rootfs s' = rootfs s /\
     new_events s s' = [EvStat "/dir/report"; EvStat "/dir/report-2"; EvStat "/dir/report-3";
                        EvStat "/dir/report-4"]) /\
  (exists s',
     run MemoryDrive.world (getAvailableName MemoryDrive.join "/dir" "report" None None) s0 =
       Finished s' (Normal "report") /\
     rootfs s' = rootfs s0 /\
     new_events s0 s' = [EvStat "/dir/report"]).
Proof.
  intros fs s s0. split.
  - destruct (getAvailableName_first_free MemoryDrive.world MemoryDrive.join
                "/dir" "report" None None s) as (_ & Hfound & _).
    destruct (Hfound 4%N) as (s' & Hrun & Hfs & Hev).
    + unfold bound. lia.
    + intros i Hi. assert (i = 1 \/ i = 2 \/ i = 3)%N as [->|[->| ->]] by lia;
        vm_compute; discriminate.
    + vm_compute. reflexivity.
    + exists s'. split; [exact Hrun|]. split; [exact Hfs|exact Hev].
  - destruct (getAvailableName_first_free MemoryDrive.world MemoryDrive.join
                "/dir" "report" None None s0) as (_ & Hfound & _).
    destruct (Hfound 1%N) as (s' & Hrun & Hfs & Hev).
    + unfold bound. lia.
    + intros i Hi. lia.
    + vm_compute. reflexivity.
    + exists s'. split; [exact Hrun|]. split; [exact Hfs|exact Hev].
Defined.

Lemma ensureDir_cases_witness :
  let s := MemoryDrive.init ∅ in
  let s' := final_state (run MemoryDrive.world (ensureDir "/bookmarks") s) in
  run MemoryDrive.world (ensureDir "/bookmarks") s = Finished s' (Normal tt) /\
  fs_stat (rootfs s) "/bookmarks" = None /\
  rootfs s' = {[ "/bookmarks" := MemoryDrive.Dir ]} /\
  new_events s s' =
    [EvStat "/bookmarks"; EvLogInfo "Creating directory /bookmarks"; EvMkdir "/bookmarks"].
Proof.
  intros s s'.
  assert (Hrun : run MemoryDrive.world (ensureDir "/bookmarks") s = Finished s' (Normal tt))
    by (vm_compute; reflexivity).
  assert (Hst : fs_stat (rootfs s) "/bookmarks" = None) by (vm_compute; reflexivity).
  do 2 (split; [assumption|]).
  destruct (ensureDir_cases MemoryDrive.world s "/bookmarks" s' (Normal tt) Hrun)
    as (_ & Hnew & _).
  specialize (Hnew Hst).
  assert (Hmk : fs_mkdir (rootfs s) "/bookmarks" = Some {[ "/bookmarks" := MemoryDrive.Dir ]})
    by (vm_compute; reflexivity).
  rewrite Hmk in Hnew. exact Hnew.
Defined.

Lemma ensureMount_cases_witness :
  let s := MemoryDrive.init {[ "/m" := MemoryDrive.Mount "aa" ]} in
  let s' := final_state (run MemoryDrive.world (ensureMount "/m" "hyper://bb") s) in
  let p' := final_state (run (H := Scenarios.pinned_fs) MemoryDrive.world
                           (ensureMount "/m" "hyper://bb") s) in
  fromURLToKey MemoryDrive.world "hyper://bb" = Some "bb" /\
  (run MemoryDrive.world (ensureMount "/m" "hyper://bb") s = Finished s' (Normal tt) /\
   mutations s s' = [EvUnmount "/m"; EvMount "/m" "bb"] /\
   rootfs s' = {[ "/m" := MemoryDrive.Mount "bb" ]}) /\
  (run (H := Scenarios.pinned_fs) MemoryDrive.world (ensureMount "/m" "hyper://bb") s =
     Finished p' (Normal tt) /\
   mutations s p' = [EvUnmount "/m"] /\
   rootfs p' = rootfs s /\
   last (new_events s p') = Some (EvLogError "Filesystem failed to mount drive")).
Proof.
  intros s s' p'.
  assert (Hk : fromURLToKey MemoryDrive.world "hyper://bb" = Some "bb")
    by (vm_compute; reflexivity).
  split; [exact Hk|]. split.
  - destruct (ensureMount_cases MemoryDrive.world s "/m" "hyper://bb" "bb" Hk)
      as (s1 & c & Hrun & -> & _ & Hreplace & _).
    assert (Hs : s' = s1) by (subst s'; rewrite Hrun; reflexivity).
    rewrite Hs. split; [exact Hrun|].
    specialize (Hreplace {| isDirectory := true; mount := Some "aa" |} "aa").
    change (fs_unmount (rootfs s) "/m") with (MemoryDrive.m_unmount (rootfs s) "/m") in Hreplace.
    assert (Hu : MemoryDrive.m_unmount (rootfs s) "/m" = Some ∅) by (vm_compute; reflexivity).
    rewrite Hu in Hreplace.
    destruct Hreplace as [Hmut Hfs].
    + vm_compute; reflexivity.
    + reflexivity.
    + discriminate.
    + split; [exact Hmut|]. apply Hfs. vm_compute; reflexivity.
  - destruct (ensureMount_cases (H := Scenarios.pinned_fs) MemoryDrive.world s "/m"
                "hyper://bb" "bb" Hk) as (s1 & c & Hrun & -> & _ & Hreplace & _).
    assert (Hs : p' = s1) by (subst p'; rewrite Hrun; reflexivity).
    rewrite Hs. split; [exact Hrun|].
    apply (Hreplace {| isDirectory := true; mount := Some "aa" |} "aa").
    + vm_compute; reflexivity.
    + reflexivity.
    + discriminate.
Defined.

Lemma ensureMount_failures_witness :
  let s := MemoryDrive.init {[ "/m" := MemoryDrive.Mount "aa" ]} in
  let s' := final_state (run (H := Scenarios.frozen_fs) MemoryDrive.world
                           (ensureMount "/m" "hyper://bb") s) in
  run (H := Scenarios.frozen_fs) MemoryDrive.world (ensureMount "/m" "hyper://bb") s =
    Finished s' (Normal tt) /\
  fs_stat (RootFS := Scenarios.frozen_fs) (rootfs s) "/m" =
    Some {| isDirectory := true; mount := Some "aa" |} /\
  fs_unmount (RootFS := Scenarios.frozen_fs) (rootfs s) "/m" = Some ∅ /\
  fs_mount (RootFS := Scenarios.frozen_fs) ∅ "/m" "bb" = None /\
  rootfs s' = ∅ /\
  mutations s s' = [EvUnmount "/m"; EvMount "/m" "bb"] /\
  last (new_events s s') = Some (EvLogError "Filesystem failed to mount drive").
Proof.
  intros s s'.
  assert (Hrun : run (H := Scenarios.frozen_fs) MemoryDrive.world
                   (ensureMount "/m" "hyper://bb") s = Finished s' (Normal tt))
    by (vm_compute; reflexivity).
  assert (Hst : fs_stat (RootFS := Scenarios.frozen_fs) (rootfs s) "/m" =
                Some {| isDirectory := true; mount := Some "aa" |})
    by (vm_compute; reflexivity).
  assert (Hu : fs_unmount (RootFS := Scenarios.frozen_fs) (rootfs s) "/m" = Some ∅)
    by (vm_compute; reflexivity).
  assert (Hm : fs_mount (RootFS := Scenarios.frozen_fs) ∅ "/m" "bb" = None) by reflexivity.
  do 4 (split; [assumption|]).
  destruct (ensureMount_failures (H := Scenarios.frozen_fs) MemoryDrive.world s "/m" "hyper://bb"
              s' (Normal tt) Hrun) as [_ Hpartial].
  destruct (Hpartial "bb" {| isDirectory := true; mount := Some "aa" |} "aa" ∅) as (_ & H1 & H2 & H3).
  - vm_compute; reflexivity.
  - exact Hst.
  - reflexivity.
  - discriminate.
  - exact Hu.
  - exact Hm.
  - repeat split; assumption.
Defined.

Lemma ensureUnmount_cases_witness :
  let s := MemoryDrive.init {[ "/m" := MemoryDrive.Mount "aa" ]} in
  let s' := final_state (run MemoryDrive.world (ensureUnmount "/m") s) in
  run MemoryDrive.world (ensureUnmount "/m") s = Finished s' (Normal tt) /\
  fs_stat (rootfs s) "/m" = Some {| isDirectory := true; mount := Some "aa" |} /\
  rootfs s' = ∅ /\
  new_events s s' = [EvStat "/m"; EvLogInfo "Removing mount"; EvUnmount "/m"].
Proof.
  intros s s'.
  assert (Hrun : run MemoryDrive.world (ensureUnmount "/m") s = Finished s' (Normal tt))
    by (vm_compute; reflexivity).
  assert (Hst : fs_stat (rootfs s) "/m" = Some {| isDirectory := true; mount := Some "aa" |})
    by (vm_compute; reflexivity).
  do 2 (split; [assumption|]).
  destruct (ensureUnmount_cases MemoryDrive.world s "/m" s' (Normal tt) Hrun)
    as (_ & Hmounted & _).
  specialize (Hmounted _ "aa" Hst eq_refl).
  assert (Hu : fs_unmount (rootfs s) "/m" = Some ∅) by (vm_compute; reflexivity).
  rewrite Hu in Hmounted. exact Hmounted.
Defined.

Lemma reconcilers_idempotent_witness :
  let s := MemoryDrive.init {[ "/m" := MemoryDrive.Mount "aa" ]} in
  let s1 := final_state (run MemoryDrive.world (ensureMount "/m" "hyper://bb") s) in
  let s2 := final_state (run MemoryDrive.world (ensureMount "/m" "hyper://bb") s1) in
  run MemoryDrive.world (ensureMount "/m" "hyper://bb") s = Finished s1 (Normal tt) /\
  run MemoryDrive.world (ensureMount "/m" "hyper://bb") s1 = Finished s2 (Normal tt) /\
  mutations s s1 = [EvUnmount "/m"; EvMount "/m" "bb"] /\
  without_trace s2 = without_trace s1 /\ mutations s1 s2 = [].
Proof.
  intros s s1 s2.
  destruct (reconcilers_idempotent (RootFSLaws0 := memory_fs_laws) MemoryDrive.world
              "/m" "hyper://bb" s) as (_ & (Hrun1 & Hrun2 & Hsame) & _).
  split; [exact Hrun1|]. split; [exact Hrun2|].
  split; [vm_compute; reflexivity|].
  apply Hsame. vm_compute. intros Hin. elem_cases Hin.
Defined.

Lemma registry_calls_serialised_witness :
  let s := MemoryDrive.init ∅ in
  let r1 := ConfigDrive "hyper://aa" ArgUndefined in
  let r2 := RemoveDrive "hyper://aa" in
  let sched := [false; true; true; true; false; false; false; false; false] in
  let s1 := final_state (run MemoryDrive.world (call r2) s) in
  let sf := final_state (run MemoryDrive.world (call r1) s1) in
  held "filesystem:drives" s = false /\
  exec MemoryDrive.world sched s (Ready (call r1)) (Ready (call r2)) =
    Some (sf, Settled (Normal tt), Settled Return) /\
  ((exists s1, run MemoryDrive.world (call r1) s = Finished s1 (Normal tt) /\
               run MemoryDrive.world (call r2) s1 = Finished sf Return) \/
   (exists s1, run MemoryDrive.world (call r2) s = Finished s1 Return /\
               run MemoryDrive.world (call r1) s1 = Finished sf (Normal tt))).
Proof.
  intros s r1 r2 sched s1 sf.
  assert (Hh : held "filesystem:drives" s = false) by reflexivity.
  assert (Hex : exec MemoryDrive.world sched s (Ready (call r1)) (Ready (call r2)) =
                Some (sf, Settled (Normal tt), Settled Return)) by (vm_compute; reflexivity).
  do 2 (split; [assumption|]).
  exact (registry_calls_serialised MemoryDrive.world sched s r1 r2 sf (Normal tt) Return Hh Hex).
Defined.


